(** * eventsourcing: the in-memory stored event repository, the event store
      and the example entity

    A shallow embedding of

    - [eventsourcing/infrastructure/stored_events/python_objects_stored_events.py]
      (class [PythonObjectsStoredEventRepository]),
    - [eventsourcing/infrastructure/event_store.py] (class [EventStore]),
    - [eventsourcing/example/domainmodel.py] (class [Example]),

    followed by the properties of these programs.

    Python objects that are mutated in place (the three dictionaries of the
    repository, the fields of an entity) are modelled by explicit state
    passing in a state-and-exception monad: a raised exception keeps the
    mutations made before it, as in Python. *)

From Stdlib Require Import ZArith String List Permutation.
From stdpp Require Import gmap strings list fin_maps sorting.

Local Open Scope Z_scope.

(** ** Exceptions and the state monad *)

(** The exceptions the modelled code can raise:
    [eventsourcing.exceptions.ConcurrencyError], the built-in [KeyError]
    (from [del d[k]] on a missing key), and the failure of an entity's own
    checks ([_assert_not_discarded], [_validate_originator]). *)
Inductive Exn : Type :=
  | ConcurrencyError
  | KeyError
  | EntityError.

Inductive Outcome (A : Type) : Type :=
  | Return (a : A)
  | Raise (e : Exn).
Arguments Return {A} a.
Arguments Raise {A} e.

(** A computation over a mutable store [St]. *)
Definition M (St A : Type) : Type := St -> Outcome A * St.

Definition ret {St A} (a : A) : M St A := fun s => (Return a, s).
Definition raise {St A} (e : Exn) : M St A := fun s => (Raise e, s).
Definition bind {St A B} (c : M St A) (k : A -> M St B) : M St B :=
  fun s => match c s with
           | (Return a, s') => k a s'
           | (Raise e, s') => (Raise e, s')
           end.
Definition gets {St A} (f : St -> A) : M St A := fun s => (Return (f s), s).
Definition modify {St} (f : St -> St) : M St unit := fun s => (Return tt, f s).

Notation "'let!' x ':=' c 'in' k" := (bind c (fun x => k))
  (at level 10, x name, c at level 100, k at level 200).
Notation "c1 ';;' c2" := (bind c1 (fun _ => c2))
  (at level 100, c2 at level 200, right associativity).

(** What a call did: its outcome and the store it left. *)
Definition outcome {St A} (r : Outcome A * St) : Outcome A := fst r.
Definition store {St A} (r : Outcome A * St) : St := snd r.

(** ** Stored events *)

(** [StoredEvent] is the named tuple of
    [eventsourcing.infrastructure.stored_events.transcoders]; its four fields
    are strings here (the event attributes are opaque to the repository). *)
Record StoredEvent : Type := mkStoredEvent {
  event_id : string;
  stored_entity_id : string;
  event_topic : string;
  event_attrs : string
}.

(** Python's [str.endswith]. *)
Definition endswith (s suffix : string) : bool :=
  let n := String.length s in
  let k := String.length suffix in
  (k <=? n)%nat && String.eqb (String.substring (n - k) k s) suffix.

(** ** The version iterators

    [itertools.chain([0], itertools.cycle([1]))] yields 0 once and 1 for
    ever after.  An iterator is represented by the number of items it has
    already yielded. *)
Definition VersionIter : Type := nat.
Definition new_iter : VersionIter := 0%nat.
Definition next (it : VersionIter) : Z * VersionIter :=
  (match it with O => 0 | S _ => 1 end, S it).

(** [timestamp_from_uuid] of [eventsourcing.utils.time] is not part of the
    modelled files.  It maps the hexadecimal UUID of an event to a float;
    the repository only compares these floats with each other and tests
    them for truth (a float is false exactly when it is zero).  Finite
    floats embed in the integers by an order and zero preserving map
    (multiply by a fixed power of two), so the timestamp is an integer
    here. *)
Class Clock : Type := timestamp_from_uuid : string -> Z.

(** Truth value of an optional number ([if x:]): [None] and [0] are false. *)
Definition truthy (x : option Z) : bool :=
  match x with
  | Some v => negb (v =? 0)
  | None => false
  end.

(** ** PythonObjectsStoredEventRepository *)

Module PythonObjectsStoredEventRepository.

Record Repo : Type := mkRepo {
  _by_id : gmap string StoredEvent;
  _by_stored_entity_id : gmap string (list StoredEvent);
  _entity_versions : gmap string (gmap Z VersionIter)
}.

(** [__init__] *)
Definition init : Repo :=
  {| _by_id := ∅; _by_stored_entity_id := ∅; _entity_versions := ∅ |}.

Definition with_by_id (f : gmap string StoredEvent -> gmap string StoredEvent)
    (s : Repo) : Repo :=
  {| _by_id := f (_by_id s);
     _by_stored_entity_id := _by_stored_entity_id s;
     _entity_versions := _entity_versions s |}.

Definition with_by_stored_entity_id
    (f : gmap string (list StoredEvent) -> gmap string (list StoredEvent))
    (s : Repo) : Repo :=
  {| _by_id := _by_id s;
     _by_stored_entity_id := f (_by_stored_entity_id s);
     _entity_versions := _entity_versions s |}.

Definition with_entity_versions
    (f : gmap string (gmap Z VersionIter) -> gmap string (gmap Z VersionIter))
    (s : Repo) : Repo :=
  {| _by_id := _by_id s;
     _by_stored_entity_id := _by_stored_entity_id s;
     _entity_versions := f (_entity_versions s) |}.

(** [self._entity_versions[stored_entity_id]]: the outer [defaultdict]
    inserts an empty inner dictionary when the key is missing.  The inner
    dictionary is shared with the store, so it is afterwards addressed
    through the store by its key. *)
Definition entity_versions_getitem (stored_entity_id : string) : M Repo unit :=
  fun s => match _entity_versions s !! stored_entity_id with
           | Some _ => (Return tt, s)
           | None => (Return tt, with_entity_versions (<[stored_entity_id := ∅]>) s)
           end.

(** [version in versions], where [versions] is the inner dictionary of
    [stored_entity_id]: membership does not insert. *)
Definition versions_contains (stored_entity_id : string) (version : Z) : M Repo bool :=
  gets (fun s => match _entity_versions s !! stored_entity_id with
                 | Some versions => bool_decide (is_Some (versions !! version))
                 | None => false
                 end).

(** [next(versions[version])]: the inner [defaultdict] inserts a new
    iterator when the key is missing; [next] advances the stored iterator. *)
Definition versions_next (stored_entity_id : string) (version : Z) : M Repo Z :=
  fun s =>
    let versions := default ∅ (_entity_versions s !! stored_entity_id) in
    let it := default new_iter (versions !! version) in
    let '(n, it') := next it in
    (Return n,
     with_entity_versions (<[stored_entity_id := <[version := it']> versions]>) s).

(** [del(self._by_id[event_id])] *)
Definition by_id_delitem (eid : string) : M Repo unit :=
  fun s => match _by_id s !! eid with
           | Some _ => (Return tt, with_by_id (delete eid) s)
           | None => (Raise KeyError, s)
           end.

(** The body of the [for] loop of [remove_entity], over the popped list. *)
Fixpoint remove_entity_loop (stored_events : list StoredEvent) : M Repo unit :=
  match stored_events with
  | [] => ret tt
  | stored_event :: rest =>
      by_id_delitem (event_id stored_event) ;;
      remove_entity_loop rest
  end.

(** [del(self._entity_versions[stored_entity_id])] *)
Definition entity_versions_delitem (stored_entity_id : string) : M Repo unit :=
  fun s => match _entity_versions s !! stored_entity_id with
           | Some _ => (Return tt, with_entity_versions (delete stored_entity_id) s)
           | None => (Raise KeyError, s)
           end.

Definition remove_entity (stored_entity_id : string) : M Repo unit :=
  (let! popped := gets (fun s => _by_stored_entity_id s !! stored_entity_id) in
   match popped with
   | Some stored_events =>
       modify (with_by_stored_entity_id (delete stored_entity_id)) ;;
       remove_entity_loop stored_events
   | None => ret tt
   end) ;;
  entity_versions_delitem stored_entity_id.

Definition append (stored_event : StoredEvent)
    (expected_version new_version : option Z) : M Repo unit :=
  let stored_entity_id := stored_entity_id stored_event in
  let event_id := event_id stored_event in
  (* Optimistic concurrency control. *)
  match new_version with
  | Some new_version =>
      entity_versions_getitem stored_entity_id ;;
      match expected_version with
      | Some expected_version =>
          let! present := versions_contains stored_entity_id expected_version in
          if negb present then raise ConcurrencyError else ret tt
      | None => ret tt
      end ;;
      (* Check we're the first to write this event. *)
      let! n := versions_next stored_entity_id new_version in
      if negb (n =? 0) then raise ConcurrencyError else ret tt
  | None => ret tt
  end ;;
  (* Remove entity if it's a discarded event. *)
  if endswith (event_topic stored_event) "Discarded" then
    remove_entity stored_entity_id
  else
    (* Index by entity ID. *)
    modify (with_by_stored_entity_id (fun d =>
      let d := match d !! stored_entity_id with
               | Some _ => d
               | None => <[stored_entity_id := []]> d
               end in
      <[stored_entity_id := default [] (d !! stored_entity_id) ++ [stored_event]]> d)) ;;
    (* Index by event ID. *)
    modify (with_by_id (<[event_id := stored_event]>)).

Section get_entity_events.
Context `{Clock}.

(** The [for] loop of [get_entity_events], with its two accumulators
    [count] and [query_results].  Note that the reversal of
    [query_results] belongs to the loop body (it is indented under the
    [for]), after every event that was appended. *)
Fixpoint query_loop (after_timestamp until_timestamp limit : option Z)
    (query_ascending results_ascending : bool)
    (stored_events : list StoredEvent)
    (count : Z) (query_results : list StoredEvent) : list StoredEvent :=
  match stored_events with
  | [] => query_results
  | event :: rest =>
      let continue := query_loop after_timestamp until_timestamp limit
                        query_ascending results_ascending rest in
      let event_timestamp := timestamp_from_uuid (event_id event) in
      if match limit with Some limit => limit <=? count | None => false end
      then query_results (* break *)
      else if truthy after_timestamp &&
              (if query_ascending
               then event_timestamp <=? default 0 after_timestamp
               else event_timestamp <? default 0 after_timestamp)
      then continue count query_results
      else if truthy until_timestamp &&
              (if query_ascending
               then default 0 until_timestamp <? event_timestamp
               else default 0 until_timestamp <=? event_timestamp)
      then continue count query_results
      else
        let query_results := query_results ++ [event] in
        let count := count + 1 in
        let query_results :=
          if negb (Bool.eqb results_ascending query_ascending)
          then rev query_results else query_results in
        continue count query_results
  end.

Definition get_entity_events (self : Repo) (stored_entity_id : string)
    (after until : option string) (limit : option Z)
    (query_ascending results_ascending : bool) : list StoredEvent :=
  match _by_stored_entity_id self !! stored_entity_id with
  | None => []
  | Some stored_events =>
      (* Stored events, here, are in ascending order. *)
      let stored_events :=
        if negb query_ascending then rev stored_events else stored_events in
      let after_timestamp := timestamp_from_uuid <$> after in
      let until_timestamp := timestamp_from_uuid <$> until in
      query_loop after_timestamp until_timestamp limit
        query_ascending results_ascending stored_events 0 []
  end.
End get_entity_events.

End PythonObjectsStoredEventRepository.

(** ** The interface of a stored event repository

    [EventStore] works with any [StoredEventRepository].  The methods it
    calls are gathered in a class; [serialize], [deserialize] and
    [iterate_entity_events] belong to the abstract base class, which is not
    among the modelled files. *)
Class StoredEventRepository (R DomainEvent : Type) : Type := {
  serialize : DomainEvent -> StoredEvent;
  deserialize : StoredEvent -> DomainEvent;
  repo_append : StoredEvent -> option Z -> option Z -> M R unit;
  repo_get_entity_events :
    R -> string -> option string -> option string -> option Z ->
    bool -> bool -> list StoredEvent;
  repo_iterate_entity_events :
    R -> string -> option string -> option string -> option Z ->
    bool -> Z -> list StoredEvent
}.

(** A domain event carries an integer [entity_version]. *)
Class Versioned (DomainEvent : Type) : Type :=
  entity_version : DomainEvent -> Z.

(** ** EventStore *)

Module EventStore.
Section EventStore.
Context {R DomainEvent : Type}.
Context `{!StoredEventRepository R DomainEvent, !Versioned DomainEvent}.

(** The store of an [EventStore] is the store of its
    [stored_event_repo]. *)
Definition append (domain_event : DomainEvent) : M R unit :=
  (* Serialize the domain event. *)
  let stored_event := serialize domain_event in
  (* Append the stored event to the stored event repo. *)
  let new_version := entity_version domain_event in
  let expected_version :=
    if negb (new_version =? 0) then Some (new_version - 1) else None in
  repo_append stored_event expected_version (Some new_version).

(** The result is the sequence that the returned [map] object yields. *)
Definition get_entity_events (self : R) (stored_entity_id : string)
    (after until : option string) (limit : option Z) (is_ascending : bool)
    (page_size : option Z) (is_short : bool) : list DomainEvent :=
  let stored_events :=
    if truthy page_size then
      repo_iterate_entity_events self stored_entity_id after until limit
        is_ascending (default 0 page_size)
    else if is_short then
      let stored_events :=
        repo_get_entity_events self stored_entity_id after until limit
          false false in
      rev stored_events
    else
      repo_get_entity_events self stored_entity_id after until limit
        is_ascending is_ascending in
  (* Deserialize all the stored event objects into domain event objects. *)
  deserialize <$> stored_events.
End EventStore.
End EventStore.

(** [PythonObjectsStoredEventRepository] as a [StoredEventRepository]; the
    inherited methods are parameters. *)
Definition python_objects_repository `{Clock}
    {DomainEvent : Type}
    (serialize : DomainEvent -> StoredEvent)
    (deserialize : StoredEvent -> DomainEvent)
    (iterate_entity_events :
       PythonObjectsStoredEventRepository.Repo -> string -> option string ->
       option string -> option Z -> bool -> Z -> list StoredEvent)
  : StoredEventRepository PythonObjectsStoredEventRepository.Repo DomainEvent :=
  {| serialize := serialize;
     deserialize := deserialize;
     repo_append := PythonObjectsStoredEventRepository.append;
     repo_get_entity_events := PythonObjectsStoredEventRepository.get_entity_events;
     repo_iterate_entity_events := iterate_entity_events |}.

(** ** Example (the example entity) *)

Module Example.

(** [Example.Heartbeat], built from [originator_id] and
    [originator_version].  (The event's own timestamp is read from the wall
    clock and is left out.) *)
Record Heartbeat : Type := mkHeartbeat {
  originator_id : string;
  originator_version : Z
}.

Record Example : Type := mkExample {
  _id : string;
  _version : Z;
  _is_discarded : bool;
  _foo : string;
  _a : string;
  _b : string;
  _count_heartbeats : Z
}.

Definition with_version (f : Z -> Z) (self : Example) : Example :=
  {| _id := _id self; _version := f (_version self);
     _is_discarded := _is_discarded self;
     _foo := _foo self; _a := _a self; _b := _b self;
     _count_heartbeats := _count_heartbeats self |}.

Definition with_count_heartbeats (f : Z -> Z) (self : Example) : Example :=
  {| _id := _id self; _version := _version self;
     _is_discarded := _is_discarded self;
     _foo := _foo self; _a := _a self; _b := _b self;
     _count_heartbeats := f (_count_heartbeats self) |}.

Section Example.
(** [_validate_originator] is inherited from the entity base classes,
    which are not among the modelled files: the check is a parameter, and
    the method raises when the check fails. *)
Variable originator_is_valid : Example -> Heartbeat -> bool.

Definition _validate_originator (event : Heartbeat) : M Example unit :=
  fun self => if originator_is_valid self event
              then (Return tt, self) else (Raise EntityError, self).

(** Modelled from the spec: [_assert_not_discarded] of the entity base
    class ("Assert not discarded"). *)
Definition _assert_not_discarded : M Example unit :=
  fun self => if _is_discarded self
              then (Raise EntityError, self) else (Return tt, self).

(** Modelled from the spec: [_increment_version] of the entity base class
    ("state.version += 1"). *)
Definition _increment_version : M Example unit :=
  modify (with_version (fun v => v + 1)).

Definition heartbeat_mutator (event : Heartbeat) : M Example unit :=
  _validate_originator event ;;
  modify (with_count_heartbeats (fun c => c + 1)) ;;
  _increment_version.

(** [self._apply(event)] runs the entity's mutator, which dispatches on
    the class of the event: a [Heartbeat] goes to [heartbeat_mutator]. *)
Definition _apply (event : Heartbeat) : M Example unit :=
  heartbeat_mutator event.

(** One turn of the [while] loop of [beat_heart]. *)
Definition beat_heart_body (events : list Heartbeat) : M Example (list Heartbeat) :=
  let! event := gets (fun self =>
    {| originator_id := _id self; originator_version := _version self |}) in
  let events := events ++ [event] in
  _apply event ;;
  ret events.

(** [while number_of_beats > 0: ...; number_of_beats -= 1] makes
    [Z.to_nat number_of_beats] turns. *)
Fixpoint beat_heart_loop (turns : nat) (events : list Heartbeat)
    : M Example (list Heartbeat) :=
  match turns with
  | O => ret events
  | S turns =>
      let! events := beat_heart_body events in
      beat_heart_loop turns events
  end.

(** [beat_heart] returns nothing; the value of the computation is the
    list it hands to [publish]. *)
Definition beat_heart (number_of_beats : Z) : M Example (list Heartbeat) :=
  _assert_not_discarded ;;
  let! events := beat_heart_loop (Z.to_nat number_of_beats) [] in
  ret events.
End Example.

End Example.

Import PythonObjectsStoredEventRepository.

(** ** Notions used to state the properties *)

(** The events stored for a sequence, in storage order. *)
Definition events_of (self : Repo) (id : string) : list StoredEvent :=
  default [] (_by_stored_entity_id self !! id).

(** The sequences that have an entry in the version index. *)
Definition indexed (self : Repo) (id : string) : Prop :=
  is_Some (_entity_versions self !! id).

(** *** Positions of stored events

    A [StoredEvent] has no position field: the position of an event is the
    [new_version] its writer passed to [append].  To speak of "the event at
    position v" the positions are written down next to the store, one entry
    per stored event and in the same order ([None] for an event written
    without [new_version]).  The entry of a call is read off the store
    before and after it: when the sequence of the call has one event more,
    that event was written by the call; when the sequence is no longer
    stored, its entries go. *)
Definition record_positions (before after : Repo) (id : string)
    (new_version : option Z) (log : gmap string (list (option Z)))
    : gmap string (list (option Z)) :=
  match _by_stored_entity_id after !! id with
  | None => delete id log
  | Some stored_events =>
      if decide (length stored_events = S (length (events_of before id)))
      then <[id := default [] (log !! id) ++ [new_version]]> log
      else log
  end.

Definition positions_of (log : gmap string (list (option Z))) (id : string)
    : list (option Z) :=
  default [] (log !! id).

(** An event at position [v] is stored for sequence [id]. *)
Definition stored_at (log : gmap string (list (option Z))) (id : string) (v : Z)
    : Prop :=
  Some v ∈ positions_of log id.

(** The stores reached from the empty repository by calls of [append] and
    [remove_entity], with their positions.  Event identifiers are UUIDs: an
    appended event brings an identifier that no stored event has. *)
Inductive history : Repo -> gmap string (list (option Z)) -> Prop :=
  | history_init : history init ∅
  | history_append self log stored_event expected_version new_version :
      history self log ->
      _by_id self !! event_id stored_event = None ->
      let after := store (append stored_event expected_version new_version self) in
      history after
        (record_positions self after (stored_entity_id stored_event) new_version log)
  | history_remove_entity self log id :
      history self log ->
      let after := store (remove_entity id self) in
      history after (record_positions self after id None log).

(** The stores reached from the empty repository by calls of
    [EventStore.append] on the in-memory repository. *)
Inductive event_store_history `{!StoredEventRepository Repo DomainEvent,
                                !Versioned DomainEvent}
    : Repo -> gmap string (list (option Z)) -> Prop :=
  | event_store_history_init : event_store_history init ∅
  | event_store_history_append self log (domain_event : DomainEvent) :
      event_store_history self log ->
      _by_id self !! event_id (serialize domain_event) = None ->
      let after := store (EventStore.append domain_event self) in
      event_store_history after
        (record_positions self after (stored_entity_id (serialize domain_event))
           (Some (entity_version domain_event)) log).

(** *** Consistency of a store and its positions

    What holds of the stores of a [history]: the positions run alongside
    the stored events; the version index of a sequence holds exactly the
    positions of its stored events; no position occurs twice in a sequence;
    every iterator of the version index has been advanced; and the stored
    events are indexed by their identifiers, which are distinct. *)
Record consistent (self : Repo) (log : gmap string (list (option Z))) : Prop := {
  positions_length : forall id,
    length (positions_of log id) = length (events_of self id);
  positions_indexed : forall id v,
    stored_at log id v <->
    is_Some (default ∅ (_entity_versions self !! id) !! v);
  positions_unique : forall id i j v,
    positions_of log id !! i = Some (Some v) ->
    positions_of log id !! j = Some (Some v) -> i = j;
  iterators_advanced : forall id versions v n,
    _entity_versions self !! id = Some versions ->
    versions !! v = Some n -> n <> new_iter;
  events_indexed : forall id e,
    e ∈ events_of self id ->
    _by_id self !! event_id e = Some e /\ stored_entity_id e = id;
  events_distinct : forall id, NoDup (event_id <$> events_of self id)
}.

(** *** The window of a read *)

Section Window.
Context `{Clock}.

Definition timestamp (e : StoredEvent) : Z := timestamp_from_uuid (event_id e).

(** The window as the specification words it: [after < p] ([after <= p]
    when reading descending) and [p <= until]. *)
Definition spec_in_window (after until : option string) (ascending : bool)
    (e : StoredEvent) : bool :=
  match after with
  | Some a => if ascending then timestamp_from_uuid a <? timestamp e
              else timestamp_from_uuid a <=? timestamp e
  | None => true
  end &&
  match until with
  | Some u => timestamp e <=? timestamp_from_uuid u
  | None => true
  end.

(** The window with the upper bound strict when reading descending. *)
Definition in_window (after until : option string) (ascending : bool)
    (e : StoredEvent) : bool :=
  match after with
  | Some a => if ascending then timestamp_from_uuid a <? timestamp e
              else timestamp_from_uuid a <=? timestamp e
  | None => true
  end &&
  match until with
  | Some u => if ascending then timestamp e <=? timestamp_from_uuid u
              else timestamp e <? timestamp_from_uuid u
  | None => true
  end.

(** The first [limit] items of a list (all of them without a limit). *)
Definition up_to (limit : option Z) (l : list StoredEvent) : list StoredEvent :=
  match limit with
  | Some n => take (Z.to_nat n) l
  | None => l
  end.

(** What is left of a limit after [count] results. *)
Definition remaining (limit : option Z) (count : Z) : option Z :=
  (fun n => n - count) <$> limit.

(** The stored events in query order. *)
Definition in_query_order (ascending : bool) (l : list StoredEvent)
    : list StoredEvent :=
  if ascending then l else rev l.
End Window.

(** ** Sample data

    Small stores and events on which the properties are exercised.  The
    sample clock reads the length of an identifier as its timestamp. *)

Definition length_clock : Clock := fun uuid => Z.of_nat (String.length uuid).

Definition sample_event (eid id topic : string) : StoredEvent :=
  {| event_id := eid; stored_entity_id := id; event_topic := topic;
     event_attrs := "" |}.

Definition created_a : StoredEvent := sample_event "a" "E" "example#Example.Created".
Definition changed_bb : StoredEvent :=
  sample_event "bb" "E" "example#Example.AttributeChanged".
Definition changed_ccc : StoredEvent :=
  sample_event "ccc" "E" "example#Example.AttributeChanged".
Definition discarded_dddd : StoredEvent :=
  sample_event "dddd" "E" "example#Example.Discarded".
Definition created_eeeee : StoredEvent :=
  sample_event "eeeee" "E" "example#Example.Created".
Definition created_f : StoredEvent := sample_event "f" "F" "example#Example.Created".

(** One, two and three events of sequence ["E"], written at positions 0, 1
    and 2. *)
Definition store_1 : Repo := store (append created_a None (Some 0) init).
Definition store_2 : Repo := store (append changed_bb (Some 0) (Some 1) store_1).
Definition store_3 : Repo := store (append changed_ccc (Some 1) (Some 2) store_2).

(** [store_3] after its sequence was discarded at position 3. *)
Definition store_discarded : Repo :=
  store (append discarded_dddd (Some 2) (Some 3) store_3).

(** A live example entity at version 1, and a check that accepts an event
    carrying the version of the entity. *)
Definition sample_entity : Example.Example :=
  {| Example._id := "x"; Example._version := 1; Example._is_discarded := false;
     Example._foo := ""; Example._a := ""; Example._b := "";
     Example._count_heartbeats := 0 |}.

Definition same_version (self : Example.Example) (event : Example.Heartbeat) : bool :=
  Example._version self =? Example.originator_version event.

(** Sample domain events: an identifier, a sequence, a topic and a
    version, serialized field by field. *)
Record SampleDomainEvent : Type := mkSampleDomainEvent {
  sample_id : string;
  sample_entity_id : string;
  sample_topic : string;
  sample_version : Z
}.

Definition sample_serialize (e : SampleDomainEvent) : StoredEvent :=
  sample_event (sample_id e) (sample_entity_id e) (sample_topic e).

Definition sample_deserialize (r : StoredEvent) : SampleDomainEvent :=
  {| sample_id := event_id r; sample_entity_id := stored_entity_id r;
     sample_topic := event_topic r; sample_version := 0 |}.

Definition sample_repository : StoredEventRepository Repo SampleDomainEvent :=
  @python_objects_repository length_clock SampleDomainEvent
    sample_serialize sample_deserialize (fun _ _ _ _ _ _ _ => []).

Definition sample_created : SampleDomainEvent :=
  {| sample_id := "a"; sample_entity_id := "E";
     sample_topic := "example#Example.Created"; sample_version := 0 |}.

(** ** Further notions

    A run of [append] calls, each given by its event, its expected version
    and its new version; exceptions are swallowed, the store is kept. *)
Definition append_all (calls : list (StoredEvent * option Z * option Z))
    (self : Repo) : Repo :=
  fold_left (fun s call => store (append call.1.1 call.1.2 call.2 s)) calls self.

(** [Example.count_heartbeats] *)
Definition count_heartbeats (self : Example.Example) : Z :=
  Example._count_heartbeats self.

(** The entity after [k] heartbeats were applied to it. *)
Definition beats_applied (k : Z) (self : Example.Example) : Example.Example :=
  Example.with_version (fun v => v + k)
    (Example.with_count_heartbeats (fun c => c + k) self).

(** ** More sample data *)

(** A second event that carries the identifier of [created_a], and the
    store in which both are stored for sequence ["E"], at positions 0 and
    1. *)
Definition duplicate_a : StoredEvent :=
  sample_event "a" "E" "example#Example.AttributeChanged".
Definition store_duplicate : Repo :=
  store (append duplicate_a (Some 0) (Some 1) store_1).

(** [store_3] with one event of a second sequence ["F"]. *)
Definition store_3_and_f : Repo := store (append created_f None (Some 0) store_3).





(** * Properties *)

(** ** Running the monad *)

Lemma bind_run {St A B} (c : M St A) (k : A -> M St B) (s : St) :
  bind c k s = match c s with
               | (Return a, s') => k a s'
               | (Raise e, s') => (Raise e, s')
               end.
Proof. reflexivity. Qed.

(** ** [remove_entity] *)

(** The loop of [remove_entity] only touches the index by event ID, and it
    raises nothing but [KeyError]. *)
Lemma remove_entity_loop_frame (stored_events : list StoredEvent) (s s' : Repo)
    (o : Outcome unit) :
  remove_entity_loop stored_events s = (o, s') ->
  _by_stored_entity_id s' = _by_stored_entity_id s /\
  _entity_versions s' = _entity_versions s /\
  (o = Return tt \/ o = Raise KeyError).
Proof.
  revert s; induction stored_events as [|e rest IH]; intros s.
  - intros [= <- <-]. auto.
  - cbn [remove_entity_loop]. rewrite bind_run. unfold by_id_delitem.
    destruct (_by_id s !! event_id e).
    + intros Hrest. by apply IH in Hrest.
    + intros [= <- <-]. auto.
Qed.

(** [remove_entity] in one piece: pop the events, run the loop over them,
    delete the entry of the version index. *)
Lemma remove_entity_run (id : string) (s : Repo) :
  remove_entity id s =
  match remove_entity_loop (events_of s id)
          (with_by_stored_entity_id (delete id) s) with
  | (Return _, s2) => entity_versions_delitem id s2
  | (Raise e, s2) => (Raise e, s2)
  end.
Proof.
  unfold remove_entity, events_of. rewrite !bind_run. unfold gets at 1.
  destruct (_by_stored_entity_id s !! id) as [evs|] eqn:Hid; simpl.
  - by rewrite bind_run.
  - unfold ret, with_by_stored_entity_id. rewrite delete_id by done.
    by destruct s.
Qed.

(** What [remove_entity] does to the events and to the version index: the
    events of the sequence are popped whatever happens next; the version
    index changes only when the call returns, and then loses the entry of
    the sequence. *)
Lemma remove_entity_effect (id : string) (s s' : Repo) (o : Outcome unit) :
  remove_entity id s = (o, s') ->
  _by_stored_entity_id s' = delete id (_by_stored_entity_id s) /\
  match o with
  | Return _ =>
      indexed s id /\ _entity_versions s' = delete id (_entity_versions s)
  | Raise e =>
      e = KeyError /\ _entity_versions s' = _entity_versions s
  end.
Proof.
  rewrite remove_entity_run.
  destruct (remove_entity_loop _ _) as [o1 s1] eqn:Hloop.
  apply remove_entity_loop_frame in Hloop as (Hb & Hv & Ho).
  simpl in Hb, Hv. unfold indexed.
  destruct Ho as [-> | ->].
  - unfold entity_versions_delitem. rewrite Hv.
    destruct (_entity_versions s !! id) eqn:E; intros [= <- <-]; simpl;
      rewrite ?Hv; eauto.
  - intros [= <- <-]. auto.
Qed.

(** Without an entry in the version index the call raises [KeyError]. *)
Lemma remove_entity_not_indexed (id : string) (s : Repo) :
  ~ indexed s id -> outcome (remove_entity id s) = Raise KeyError.
Proof.
  intros Hn. destruct (remove_entity id s) as [o s'] eqn:E.
  apply remove_entity_effect in E as [_ E].
  destruct o as [[]|e]; [tauto | by destruct E as [-> _]].
Qed.

(** ** [get_entity_events] *)

Section ReadFacts.
Context `{Clock}.

Lemma get_entity_events_events_of (s : Repo) (id : string)
    (after until : option string) (limit : option Z) (qa ra : bool) :
  get_entity_events s id after until limit qa ra =
  query_loop (timestamp_from_uuid <$> after) (timestamp_from_uuid <$> until)
    limit qa ra (in_query_order qa (events_of s id)) 0 [].
Proof.
  unfold get_entity_events, events_of, in_query_order.
  destruct (_by_stored_entity_id s !! id); simpl; destruct qa; done.
Qed.

(** A read depends on the store through the events of its sequence only. *)
Lemma get_entity_events_ext (s s' : Repo) (id : string)
    (after until : option string) (limit : option Z) (qa ra : bool) :
  _by_stored_entity_id s' !! id = _by_stored_entity_id s !! id ->
  get_entity_events s' id after until limit qa ra =
  get_entity_events s id after until limit qa ra.
Proof. unfold get_entity_events. by intros ->. Qed.

(** Without bounds and in one direction the loop passes every event on. *)
Lemma query_loop_unbounded (qa : bool) (l : list StoredEvent) (count : Z)
    (acc : list StoredEvent) :
  query_loop None None None qa qa l count acc = acc ++ l.
Proof.
  revert count acc; induction l as [|e l IH]; intros count acc; simpl.
  - by rewrite app_nil_r.
  - rewrite Bool.eqb_reflx. simpl. rewrite IH, <- app_assoc. done.
Qed.
End ReadFacts.

(** ** [append] *)

Lemma with_entity_versions_id (id : string) (vs : gmap Z VersionIter) (s : Repo) :
  _entity_versions s !! id = Some vs ->
  with_entity_versions (<[id := vs]>) s = s.
Proof.
  intros Hvs. destruct s as [a b c]. unfold with_entity_versions; simpl in *.
  by rewrite insert_id.
Qed.

Lemma with_entity_versions_twice (id : string) (vs vs' : gmap Z VersionIter)
    (s : Repo) :
  with_entity_versions (<[id := vs']>) (with_entity_versions (<[id := vs]>) s)
  = with_entity_versions (<[id := vs']>) s.
Proof.
  unfold with_entity_versions; simpl. by rewrite insert_insert_eq.
Qed.

(** Without [new_version] nothing is checked: the event is stored, or the
    sequence removed. *)
Lemma append_unchecked (ev : StoredEvent) (exp : option Z) (s : Repo) :
  append ev exp None s =
  if endswith (event_topic ev) "Discarded"
  then remove_entity (stored_entity_id ev) s
  else (Return tt,
        with_by_id (<[event_id ev := ev]>)
          (with_by_stored_entity_id
             (<[stored_entity_id ev := events_of s (stored_entity_id ev) ++ [ev]]>) s)).
Proof.
  unfold append. rewrite bind_run. unfold ret at 1.
  destruct (endswith _ _); [done|].
  rewrite bind_run. unfold modify, events_of, with_by_stored_entity_id; simpl.
  destruct (_by_stored_entity_id s !! stored_entity_id ev) eqn:E; simpl.
  - by rewrite E.
  - by rewrite lookup_insert_eq, insert_insert_eq.
Qed.

(** With [new_version] the version index decides; a call that passes both
    checks goes on as an unchecked call on the store with the version
    marked. *)
Lemma append_checked (ev : StoredEvent) (exp : option Z) (v : Z) (s : Repo) :
  let id := stored_entity_id ev in
  let vs := default ∅ (_entity_versions s !! id) in
  append ev exp (Some v) s =
  if match exp with Some x => bool_decide (vs !! x = None) | None => false end
  then (Raise ConcurrencyError, with_entity_versions (<[id := vs]>) s)
  else match default new_iter (vs !! v) with
       | S n =>
           (Raise ConcurrencyError,
            with_entity_versions (<[id := <[v := S (S n)]> vs]>) s)
       | O =>
           append ev exp None
             (with_entity_versions (<[id := <[v := 1%nat]> vs]>) s)
       end.
Proof.
  intros id vs.
  assert (Hget : entity_versions_getitem id s
                 = (Return tt, with_entity_versions (<[id := vs]>) s)).
  { unfold entity_versions_getitem, vs.
    destruct (_entity_versions s !! id) eqn:E; simpl; [|done].
    by rewrite with_entity_versions_id. }
  set (s1 := with_entity_versions (<[id := vs]>) s) in *.
  assert (Hs1 : _entity_versions s1 !! id = Some vs)
    by (unfold s1; simpl; apply lookup_insert_eq).
  assert (Hnext : versions_next id v s1 =
            (Return (match default new_iter (vs !! v) with O => 0 | S _ => 1 end),
             with_entity_versions
               (<[id := <[v := S (default new_iter (vs !! v))]> vs]>) s)).
  { unfold versions_next, next. rewrite Hs1. simpl. unfold s1.
    by rewrite with_entity_versions_twice. }
  assert (Hrest :
    (let! n := versions_next id v in
     if negb (n =? 0) then raise ConcurrencyError else ret tt) s1 =
    match default new_iter (vs !! v) with
    | S n => (Raise ConcurrencyError,
              with_entity_versions (<[id := <[v := S (S n)]> vs]>) s)
    | O => (Return tt, with_entity_versions (<[id := <[v := 1%nat]> vs]>) s)
    end).
  { rewrite bind_run, Hnext. by destruct (default new_iter (vs !! v)). }
  unfold append at 1. fold id.
  rewrite !bind_run, Hget.
  destruct exp as [x|].
  - rewrite !bind_run. unfold versions_contains, gets. rewrite Hs1.
    destruct (vs !! x) as [n|] eqn:Ex.
    + rewrite bool_decide_eq_true_2 by eauto. cbn [negb]. unfold ret at 1.
      rewrite bool_decide_eq_false_2 by done.
      rewrite Hrest.
      destruct (default new_iter (vs !! v)); [|done].
      unfold append. by rewrite !bind_run.
    + rewrite bool_decide_eq_false_2 by (intros [? ?]; done). cbn [negb].
      by rewrite bool_decide_eq_true_2.
  - rewrite bind_run. unfold ret at 1. rewrite Hrest.
    destruct (default new_iter (vs !! v)); [|done].
    unfold append. by rewrite !bind_run.
Qed.

(** A call leaves the events and the version index of every other
    sequence alone. *)
Lemma append_frame (ev : StoredEvent) (exp nv : option Z) (s s' : Repo)
    (o : Outcome unit) (id' : string) :
  append ev exp nv s = (o, s') ->
  id' <> stored_entity_id ev ->
  _by_stored_entity_id s' !! id' = _by_stored_entity_id s !! id' /\
  _entity_versions s' !! id' = _entity_versions s !! id'.
Proof.
  intros Hrun Hne.
  assert (Hun : forall s0 o0 s0', append ev exp None s0 = (o0, s0') ->
            _by_stored_entity_id s0' !! id' = _by_stored_entity_id s0 !! id' /\
            _entity_versions s0' !! id' = _entity_versions s0 !! id').
  { intros s0 o0 s0'. rewrite append_unchecked.
    destruct (endswith _ _).
    - intros Hrm. apply remove_entity_effect in Hrm as [-> Hv].
      rewrite lookup_delete_ne by done. split; [done|].
      destruct o0 as [[]|e]; destruct Hv as [_ ->];
        [by rewrite lookup_delete_ne | done].
    - intros [= <- <-]. simpl. by rewrite lookup_insert_ne. }
  destruct nv as [v|]; [|by eapply Hun].
  rewrite append_checked in Hrun.
  destruct (match exp with Some _ => _ | None => _ end).
  { injection Hrun as <- <-. simpl. by rewrite lookup_insert_ne. }
  destruct (default new_iter _).
  - apply Hun in Hrun. simpl in Hrun. by rewrite lookup_insert_ne in Hrun.
  - injection Hrun as <- <-. simpl. by rewrite lookup_insert_ne.
Qed.

(** Two writers at one position: once a call has stored its event at
    position [v], a second call at position [v] for the same sequence
    raises [ConcurrencyError], in any store. *)
Lemma second_writer_rejected (first second : StoredEvent)
    (exp exp' : option Z) (v : Z) (s s' : Repo) :
  endswith (event_topic first) "Discarded" = false ->
  append first exp (Some v) s = (Return tt, s') ->
  stored_entity_id second = stored_entity_id first ->
  outcome (append second exp' (Some v) s') = Raise ConcurrencyError.
Proof.
  intros Htopic Hrun Hid.
  set (id := stored_entity_id first) in *.
  assert (Hmarked : exists vs, _entity_versions s' !! id = Some (<[v := 1%nat]> vs)).
  { rewrite append_checked in Hrun. fold id in Hrun.
    destruct (match exp with Some _ => _ | None => _ end); [done|].
    destruct (default new_iter _); [|done].
    rewrite append_unchecked, Htopic in Hrun. injection Hrun as <-. simpl.
    rewrite lookup_insert_eq. eauto. }
  destruct Hmarked as [vs Hvs].
  rewrite append_checked, Hid. fold id. rewrite Hvs. simpl.
  destruct (match exp' with Some _ => _ | None => _ end); [done|].
  by rewrite lookup_insert_eq.
Qed.

(** ** The event store hands the event to the repository *)

(** C2.  [EventStore.append e] is one call of the repository's [append]:
    with the record [serialize e], with [new_version] the version of [e],
    and with [expected_version] that version minus one, or none when the
    version is 0.  The outcome and the store are those of that call, so a
    [ConcurrencyError] comes out as raised and nothing else is changed. *)
Theorem event_store_append_delegates {R DomainEvent : Type}
    `{!StoredEventRepository R DomainEvent, !Versioned DomainEvent}
    (domain_event : DomainEvent) (self : R) :
  EventStore.append domain_event self =
  repo_append (serialize domain_event)
    (if decide (entity_version domain_event = 0) then None
     else Some (entity_version domain_event - 1))
    (Some (entity_version domain_event)) self.
Proof.
  unfold EventStore.append.
  destruct (decide (entity_version domain_event = 0)) as [->|Hne]; [done|].
  by apply Z.eqb_neq in Hne as ->.
Qed.

(** ** The short read *)

(** C7.  On the in-memory repository, a read through the event store with
    [is_short] set and without [after], [until], [limit] and [page_size]
    yields the events of the default ascending read, in the same order:
    both are the stored events of the sequence, deserialized. *)
Theorem short_read_is_default_read `{Clock} {DomainEvent : Type}
    (ser : DomainEvent -> StoredEvent) (deser : StoredEvent -> DomainEvent)
    (iter : Repo -> string -> option string -> option string -> option Z ->
            bool -> Z -> list StoredEvent)
    (self : Repo) (id : string) :
  let repo := python_objects_repository ser deser iter in
  EventStore.get_entity_events self id None None None true None true
  = EventStore.get_entity_events self id None None None true None false /\
  EventStore.get_entity_events self id None None None true None false
  = deser <$> events_of self id.
Proof.
  intros repo. unfold EventStore.get_entity_events. simpl.
  rewrite !get_entity_events_events_of. simpl.
  rewrite !query_loop_unbounded. simpl. by rewrite rev_involutive.
Qed.

(** ** Other sequences *)

(** C10.  A call of [append] or of [remove_entity] for one sequence leaves
    every read of any other sequence as it was, whether the call returns or
    raises. *)
Theorem other_sequences_unchanged `{Clock} (self : Repo) (id id' : string) :
  id <> id' ->
  (forall stored_event expected_version new_version
          after until limit query_ascending results_ascending,
     stored_entity_id stored_event = id ->
     get_entity_events
       (store (append stored_event expected_version new_version self))
       id' after until limit query_ascending results_ascending
     = get_entity_events self id' after until limit
         query_ascending results_ascending) /\
  (forall after until limit query_ascending results_ascending,
     get_entity_events (store (remove_entity id self))
       id' after until limit query_ascending results_ascending
     = get_entity_events self id' after until limit
         query_ascending results_ascending).
Proof.
  intros Hne. split.
  - intros ev exp nv after until limit qa ra Hid.
    apply get_entity_events_ext.
    destruct (append ev exp nv self) as [o s'] eqn:Hrun.
    eapply append_frame in Hrun as [Hb _]; [exact Hb | congruence].
  - intros after until limit qa ra. apply get_entity_events_ext.
    destruct (remove_entity id self) as [o s'] eqn:Hrun.
    apply remove_entity_effect in Hrun as [Hb _]. simpl.
    by rewrite Hb, lookup_delete_ne.
Qed.

Lemma other_sequences_unchanged_witness :
  @get_entity_events length_clock
    (store (append created_f None (Some 0) store_3)) "E" None None None true true
  = @get_entity_events length_clock store_3 "E" None None None true true /\
  @get_entity_events length_clock
    (store (remove_entity "F" store_3)) "E" None None None true true
  = @get_entity_events length_clock store_3 "E" None None None true true.
Proof.
  assert (Hne : "F" <> "E") by done.
  split.
  - apply (proj1 (@other_sequences_unchanged length_clock store_3 "F" "E" Hne)).
    reflexivity.
  - apply (proj2 (@other_sequences_unchanged length_clock store_3 "F" "E" Hne)).
Defined.

(** ** After a discard *)

(** C3, as the claim states it, fails: after the discard of sequence ["E"]
    at position 3 was appended, an append at position 0 for ["E"] returns
    instead of raising [ConcurrencyError], and the next read of ["E"] is
    not empty. *)
Lemma append_after_discard_accepted :
  outcome (append discarded_dddd (Some 2) (Some 3) store_3) = Return tt /\
  outcome (append created_eeeee None (Some 0) store_discarded) = Return tt /\
  outcome (append created_eeeee None (Some 0) store_discarded)
    <> Raise ConcurrencyError /\
  @get_entity_events length_clock
    (store (append created_eeeee None (Some 0) store_discarded))
    "E" None None None true true = [created_eeeee].
Proof. vm_compute. repeat split; discriminate. Qed.

(** C3, amended.  Once the append of a [Discarded] event has returned, a
    read of its sequence returns the empty list, and an append for that
    sequence with both [expected_version] and [new_version] given (what
    [EventStore.append] passes for every version but 0) raises
    [ConcurrencyError].  An append with [new_version] and without
    [expected_version] (version 0) returns: the version index of the
    sequence was deleted with its events. *)
Theorem discard_then_read_and_append `{Clock} (self after_discard : Repo)
    (discarded : StoredEvent) (expected_version new_version : option Z) :
  endswith (event_topic discarded) "Discarded" = true ->
  append discarded expected_version new_version self = (Return tt, after_discard) ->
  let id := stored_entity_id discarded in
  (forall after until limit query_ascending results_ascending,
     get_entity_events after_discard id after until limit
       query_ascending results_ascending = []) /\
  (forall stored_event x v,
     stored_entity_id stored_event = id ->
     outcome (append stored_event (Some x) (Some v) after_discard)
       = Raise ConcurrencyError) /\
  (forall stored_event v,
     stored_entity_id stored_event = id ->
     outcome (append stored_event None (Some v) after_discard) = Return tt).
Proof.
  intros Htopic Hrun id.
  assert (Hgone : _by_stored_entity_id after_discard !! id = None /\
                  _entity_versions after_discard !! id = None).
  { assert (Hrm : exists s0, remove_entity id s0 = (Return tt, after_discard)).
    { destruct new_version as [v|].
      - rewrite append_checked in Hrun.
        destruct (match expected_version with Some _ => _ | None => _ end);
          [done|].
        destruct (default new_iter _); [|done].
        rewrite append_unchecked, Htopic in Hrun. eauto.
      - rewrite append_unchecked, Htopic in Hrun. eauto. }
    destruct Hrm as [s0 Hrm].
    apply remove_entity_effect in Hrm as [-> [_ ->]].
    by rewrite !lookup_delete_eq. }
  destruct Hgone as [Hb Hv]. split; [|split].
  - intros. unfold get_entity_events. by rewrite Hb.
  - intros ev x v Hid. rewrite append_checked, Hid. fold id. rewrite Hv.
    simpl. by rewrite lookup_empty, bool_decide_eq_true_2.
  - intros ev v Hid. rewrite append_checked, Hid. fold id. rewrite Hv.
    simpl. rewrite lookup_empty. simpl.
    rewrite append_unchecked, Hid. fold id.
    destruct (endswith (event_topic ev) _); [|done].
    rewrite remove_entity_run. unfold events_of. simpl. rewrite Hb. simpl.
    unfold ret, entity_versions_delitem. simpl.
    by rewrite lookup_insert_eq.
Qed.

Lemma discard_then_read_and_append_witness :
  @get_entity_events length_clock store_discarded "E" None None None true true = [] /\
  outcome (append created_eeeee (Some 0) (Some 1) store_discarded)
    = Raise ConcurrencyError /\
  outcome (append created_eeeee None (Some 0) store_discarded) = Return tt.
Proof.
  assert (Htopic : endswith (event_topic discarded_dddd) "Discarded" = true)
    by reflexivity.
  assert (Hrun : append discarded_dddd (Some 2) (Some 3) store_3
                 = (Return tt, store_discarded)) by (vm_compute; reflexivity).
  pose proof (@discard_then_read_and_append length_clock store_3 store_discarded
                discarded_dddd (Some 2) (Some 3) Htopic Hrun) as (Hread & Hce & Hok).
  split; [apply Hread|]. split; [by apply Hce | by apply Hok].
Defined.

(** ** The window of a read *)

Section ReadWindow.
Context `{Clock}.

(** The two tests of the loop body amount to [in_window] when the bounds
    that are given have a timestamp other than zero. *)
Lemma in_window_tests (after until : option string) (qa : bool) (e : StoredEvent) :
  (forall a, after = Some a -> timestamp_from_uuid a <> 0) ->
  (forall u, until = Some u -> timestamp_from_uuid u <> 0) ->
  let after_timestamp := timestamp_from_uuid <$> after in
  let until_timestamp := timestamp_from_uuid <$> until in
  in_window after until qa e =
  negb (truthy after_timestamp &&
        (if qa then timestamp e <=? default 0 after_timestamp
         else timestamp e <? default 0 after_timestamp)) &&
  negb (truthy until_timestamp &&
        (if qa then default 0 until_timestamp <? timestamp e
         else default 0 until_timestamp <=? timestamp e)).
Proof.
  intros Ha Hu. unfold in_window.
  destruct after as [a|], until as [u|]; simpl;
    try (specialize (Ha a eq_refl); apply Z.eqb_neq in Ha; rewrite Ha);
    try (specialize (Hu u eq_refl); apply Z.eqb_neq in Hu; rewrite Hu);
    destruct qa; simpl; f_equal; lia.
Qed.

Lemma up_to_none_left (limit : option Z) (count : Z) (l : list StoredEvent) :
  match limit with Some n => n <=? count | None => false end = true ->
  up_to (remaining limit count) l = [].
Proof.
  destruct limit as [n|]; [|done]. simpl. intros Hn.
  replace (Z.to_nat (n - count)) with 0%nat by lia. done.
Qed.

Lemma up_to_cons (limit : option Z) (count : Z) (e : StoredEvent)
    (l : list StoredEvent) :
  match limit with Some n => n <=? count | None => false end = false ->
  up_to (remaining limit count) (e :: l)
  = e :: up_to (remaining limit (count + 1)) l.
Proof.
  destruct limit as [n|]; [|done]. simpl. intros Hn.
  replace (Z.to_nat (n - count)) with (S (Z.to_nat (n - (count + 1)))) by lia.
  done.
Qed.

(** The loop in one direction: the accumulator, then the events of the
    window up to the limit, in the order of the query. *)
Lemma query_loop_window (after until : option string) (limit : option Z)
    (qa : bool) (l : list StoredEvent) (count : Z) (acc : list StoredEvent) :
  (forall a, after = Some a -> timestamp_from_uuid a <> 0) ->
  (forall u, until = Some u -> timestamp_from_uuid u <> 0) ->
  query_loop (timestamp_from_uuid <$> after) (timestamp_from_uuid <$> until)
    limit qa qa l count acc
  = acc ++ up_to (remaining limit count) (List.filter (in_window after until qa) l).
Proof.
  intros Ha Hu. revert count acc.
  induction l as [|e l IH]; intros count acc.
  - simpl. destruct limit; simpl; by rewrite ?take_nil, app_nil_r.
  - cbn [query_loop List.filter].
    rewrite (in_window_tests after until qa e Ha Hu). fold (timestamp e).
    destruct (match limit with Some n => n <=? count | None => false end) eqn:Hl.
    { by rewrite up_to_none_left, app_nil_r. }
    destruct (truthy _ && _); cbn [negb andb]; [apply IH|].
    destruct (truthy _ && _); cbn [negb andb]; [apply IH|].
    rewrite Bool.eqb_reflx. cbn [negb].
    rewrite IH, up_to_cons, <- app_assoc by done. done.
Qed.

(** The loop in mixed directions: the same events, in some order. *)
Lemma query_loop_window_perm (after until : option string) (limit : option Z)
    (qa ra : bool) (l : list StoredEvent) (count : Z) (acc : list StoredEvent) :
  (forall a, after = Some a -> timestamp_from_uuid a <> 0) ->
  (forall u, until = Some u -> timestamp_from_uuid u <> 0) ->
  query_loop (timestamp_from_uuid <$> after) (timestamp_from_uuid <$> until)
    limit qa ra l count acc
  ≡ₚ acc ++ up_to (remaining limit count) (List.filter (in_window after until qa) l).
Proof.
  intros Ha Hu. revert count acc.
  induction l as [|e l IH]; intros count acc.
  - simpl. destruct limit; simpl; by rewrite ?take_nil, app_nil_r.
  - cbn [query_loop List.filter].
    rewrite (in_window_tests after until qa e Ha Hu). fold (timestamp e).
    destruct (match limit with Some n => n <=? count | None => false end) eqn:Hl.
    { by rewrite up_to_none_left, app_nil_r. }
    destruct (truthy _ && _); cbn [negb andb]; [apply IH|].
    destruct (truthy _ && _); cbn [negb andb]; [apply IH|].
    rewrite IH, up_to_cons by done.
    destruct (negb (Bool.eqb ra qa)).
    + rewrite <- Permutation_rev, <- app_assoc. done.
    + by rewrite <- app_assoc.
Qed.
End ReadWindow.

(** C5, as the claim states it, fails on a descending read: with [until]
    the identifier of the second event of ["E"], that event lies in the
    window of the claim ([p <= until]) and the claim's read is the second
    and the first event, but the code returns the first event only. *)
Lemma descending_read_excludes_until :
  @get_entity_events length_clock store_3 "E" None (Some "bb") None false false
    = [created_a] /\
  @spec_in_window length_clock None (Some "bb") false changed_bb = true /\
  up_to None (List.filter (@spec_in_window length_clock None (Some "bb") false)
                (in_query_order false (events_of store_3 "E")))
    = [changed_bb; created_a] /\
  @get_entity_events length_clock store_3 "E" None (Some "bb") None false false
    <> up_to None (List.filter (@spec_in_window length_clock None (Some "bb") false)
                     (in_query_order false (events_of store_3 "E"))).
Proof. vm_compute. repeat split; discriminate. Qed.

(** C5, amended.  Timestamps are those of the event identifiers, and the
    bounds that are given have a timestamp other than zero.  A read returns
    exactly the stored events of the sequence whose timestamp [p] satisfies
    [after < p <= until] when the query is ascending and [after <= p < until]
    when it is descending, up to [limit]: the first [limit] such events in the
    order of the query.  When the results are asked in the direction of the
    query they come in that order. *)
Theorem read_returns_window `{Clock} (self : Repo) (id : string)
    (after until : option string) (limit : option Z)
    (query_ascending results_ascending : bool) :
  (forall a, after = Some a -> timestamp_from_uuid a <> 0) ->
  (forall u, until = Some u -> timestamp_from_uuid u <> 0) ->
  let window :=
    up_to limit (List.filter (in_window after until query_ascending)
                   (in_query_order query_ascending (events_of self id))) in
  get_entity_events self id after until limit query_ascending results_ascending
    ≡ₚ window /\
  (results_ascending = query_ascending ->
   get_entity_events self id after until limit query_ascending results_ascending
     = window).
Proof.
  intros Ha Hu window. rewrite get_entity_events_events_of.
  assert (Hlimit : remaining limit 0 = limit).
  { destruct limit as [n|]; [|done]. simpl. f_equal. lia. }
  split.
  - rewrite query_loop_window_perm by done. by rewrite Hlimit.
  - intros ->. rewrite query_loop_window by done. by rewrite Hlimit.
Qed.

Lemma read_returns_window_witness :
  @get_entity_events length_clock store_3 "E" (Some "a") (Some "ccc") (Some 1)
    false false = [changed_bb].
Proof.
  assert (Ha : forall a, Some "a" = Some a -> @timestamp_from_uuid length_clock a <> 0)
    by (intros a [= <-]; vm_compute; discriminate).
  assert (Hu : forall u, Some "ccc" = Some u -> @timestamp_from_uuid length_clock u <> 0)
    by (intros u [= <-]; vm_compute; discriminate).
  apply (proj2 (@read_returns_window length_clock store_3 "E" (Some "a") (Some "ccc")
                  (Some 1) false false Ha Hu)).
  reflexivity.
Defined.

(** ** Results against the direction of the query *)

(** C6.  With three stored events, a read that queries ascending and asks
    for descending results is not the reverse of the read in one direction:
    the list is reversed after every event that is added to it, not once at
    the end. *)
Theorem mixed_direction_read_not_reversed :
  @get_entity_events length_clock store_3 "E" None None None true true
    = [created_a; changed_bb; changed_ccc] /\
  @get_entity_events length_clock store_3 "E" None None None true false
    = [changed_ccc; created_a; changed_bb] /\
  @get_entity_events length_clock store_3 "E" None None None true false
    <> rev (@get_entity_events length_clock store_3 "E" None None None true true).
Proof. vm_compute. repeat split; discriminate. Qed.

(** ** Heartbeats *)

Section Heartbeats.
Import Example.
Variable originator_is_valid : Example -> Heartbeat -> bool.

(** One turn of the loop builds its event from the identifier and the
    version the entity has then, and leaves the version one higher. *)
Lemma beat_heart_body_run (events events' : list Heartbeat) (self self' : Example) :
  beat_heart_body originator_is_valid events self = (Return events', self') ->
  events' = events ++ [mkHeartbeat (_id self) (_version self)] /\
  _id self' = _id self /\
  _version self' = _version self + 1.
Proof.
  unfold beat_heart_body, _apply, heartbeat_mutator, _validate_originator,
    _increment_version.
  rewrite !bind_run. unfold gets at 1. rewrite !bind_run.
  destruct (originator_is_valid self _); [|done].
  rewrite !bind_run. unfold modify, ret. by intros [= <- <-].
Qed.

Lemma beat_heart_loop_run (turns : nat) (events events' : list Heartbeat)
    (self self' : Example) :
  beat_heart_loop originator_is_valid turns events self = (Return events', self') ->
  events' = events ++
    ((fun k => mkHeartbeat (_id self) (_version self + Z.of_nat k)) <$> seq 0 turns) /\
  _version self' = _version self + Z.of_nat turns.
Proof.
  revert events self; induction turns as [|turns IH]; intros events self.
  - intros [= <- <-]. simpl. rewrite app_nil_r. split; [done | lia].
  - cbn [beat_heart_loop]. rewrite bind_run.
    destruct (beat_heart_body _ events self) as [[evs1|e] self1] eqn:Hbody;
      [|done].
    apply beat_heart_body_run in Hbody as (-> & Hid & Hv).
    intros Hloop. apply IH in Hloop as [-> ->]. rewrite Hid, Hv. split; [|lia].
    rewrite <- app_assoc. f_equal. cbn [seq fmap list_fmap app].
    rewrite Z.add_0_r. f_equal.
    rewrite <- seq_shift, <- list_fmap_compose.
    apply list_fmap_ext. intros _ k _. simpl. f_equal. lia.
Qed.
End Heartbeats.

(** C8, as the claim states it, fails: one beat of a live entity at
    version 1 builds a heartbeat of version 1, not 2. *)
Lemma heartbeat_carries_current_version :
  outcome (Example.beat_heart same_version 1 sample_entity)
    = Return [Example.mkHeartbeat "x" 1] /\
  Example.originator_version (Example.mkHeartbeat "x" 1)
    <> Example._version sample_entity + 1.
Proof. vm_compute. split; [reflexivity | discriminate]. Qed.

(** C8, amended.  Every [Heartbeat] that [beat_heart] builds carries the
    version the entity has at the moment the event is built; applying the
    event then raises the version by one.  So a call that returns has
    published [number_of_beats] heartbeats with the versions [v], [v + 1],
    ... where [v] is the version of the entity at the call. *)
Theorem beat_heart_versions (originator_is_valid : Example.Example -> Example.Heartbeat -> bool)
    (number_of_beats : Z) (self self' : Example.Example)
    (events : list Example.Heartbeat) :
  Example.beat_heart originator_is_valid number_of_beats self = (Return events, self') ->
  events =
    ((fun k => Example.mkHeartbeat (Example._id self)
                 (Example._version self + Z.of_nat k))
       <$> seq 0 (Z.to_nat number_of_beats)) /\
  Example._version self'
    = Example._version self + Z.of_nat (Z.to_nat number_of_beats) /\
  (forall before built after_turn self1 self2,
     Example.beat_heart_body originator_is_valid before self1
       = (Return after_turn, self2) ->
     last after_turn = Some built ->
     Example.originator_version built = Example._version self1 /\
     Example._version self2 = Example._version self1 + 1).
Proof.
  unfold Example.beat_heart, Example._assert_not_discarded.
  rewrite !bind_run. destruct (Example._is_discarded self); [done|].
  rewrite bind_run.
  destruct (Example.beat_heart_loop _ _ _ self) as [[evs|e] s1] eqn:Hloop; [|done].
  unfold ret. intros [= <- <-].
  apply beat_heart_loop_run in Hloop as [-> ->].
  split; [done|]. split; [done|].
  intros before built after_turn self1 self2 Hbody Hlast.
  apply beat_heart_body_run in Hbody as (-> & _ & ->).
  rewrite last_snoc in Hlast. by injection Hlast as <-.
Qed.

Lemma beat_heart_versions_witness :
  [Example.mkHeartbeat "x" 1; Example.mkHeartbeat "x" 2]
  = ((fun k => Example.mkHeartbeat (Example._id sample_entity)
                 (Example._version sample_entity + Z.of_nat k))
       <$> seq 0 (Z.to_nat 2)).
Proof.
  refine (proj1 (beat_heart_versions same_version 2 sample_entity
                   (store (Example.beat_heart same_version 2 sample_entity))
                   [Example.mkHeartbeat "x" 1; Example.mkHeartbeat "x" 2] _)).
  vm_compute. reflexivity.
Defined.

(** ** Positions *)

Section Positions.
Implicit Types (log : gmap string (list (option Z))) (id : string).

Lemma record_positions_other before after id id' nv log :
  id' <> id ->
  positions_of (record_positions before after id nv log) id'
  = positions_of log id'.
Proof.
  intros Hne. unfold record_positions, positions_of.
  destruct (_by_stored_entity_id after !! id).
  - case_decide; [by rewrite lookup_insert_ne | done].
  - by rewrite lookup_delete_ne.
Qed.

Lemma record_positions_removed before after id nv log :
  _by_stored_entity_id after !! id = None ->
  positions_of (record_positions before after id nv log) id = [].
Proof.
  intros Hnone. unfold record_positions, positions_of.
  by rewrite Hnone, lookup_delete_eq.
Qed.

Lemma record_positions_stored before after id nv log e :
  _by_stored_entity_id after !! id = Some (events_of before id ++ [e]) ->
  positions_of (record_positions before after id nv log) id
  = positions_of log id ++ [nv].
Proof.
  intros Hsome. unfold record_positions, positions_of. rewrite Hsome.
  rewrite decide_True by (rewrite length_app; simpl; lia).
  by rewrite lookup_insert_eq.
Qed.

Lemma record_positions_same before after id nv log :
  _by_stored_entity_id after !! id = _by_stored_entity_id before !! id ->
  length (positions_of log id) = length (events_of before id) ->
  positions_of (record_positions before after id nv log) id
  = positions_of log id.
Proof.
  intros Hsame Hlen. unfold record_positions. rewrite Hsame.
  unfold events_of in *.
  destruct (_by_stored_entity_id before !! id) as [evs|] eqn:E; simpl in *.
  - rewrite decide_False by lia. done.
  - unfold positions_of at 1. rewrite lookup_delete_eq. simpl.
    symmetry. by apply nil_length_inv.
Qed.
End Positions.

(** ** The loop of [remove_entity] on distinct, indexed events *)

Lemma remove_entity_loop_ok (stored_events : list StoredEvent) (s : Repo) :
  NoDup (event_id <$> stored_events) ->
  (forall e, e ∈ stored_events -> is_Some (_by_id s !! event_id e)) ->
  exists s',
    remove_entity_loop stored_events s = (Return tt, s') /\
    forall k, _by_id s' !! k =
              if decide (k ∈ event_id <$> stored_events) then None
              else _by_id s !! k.
Proof.
  revert s; induction stored_events as [|e rest IH]; intros s Hnd Hin.
  - exists s. split; [done|]. intros k. rewrite decide_False; [done|].
    simpl. apply not_elem_of_nil.
  - cbn [remove_entity_loop]. rewrite bind_run. unfold by_id_delitem.
    rewrite fmap_cons in Hnd. apply NoDup_cons in Hnd as [Hnotin Hnd].
    destruct (Hin e) as [x Hx]; [by left|]. rewrite Hx.
    destruct (IH (with_by_id (delete (event_id e)) s) Hnd) as (s' & Hrun & Hlk).
    { intros e' He'. simpl. rewrite lookup_delete_ne; [apply Hin; by right|].
      intros Heq. apply Hnotin. rewrite Heq. by apply list_elem_of_fmap_2. }
    exists s'. split; [done|]. intros k. rewrite Hlk. simpl.
    destruct (decide (k = event_id e)) as [->|Hk].
    + rewrite lookup_delete_eq. rewrite (decide_True (P := _ ∈ _ :: _)) by by left.
      by case_decide.
    + rewrite lookup_delete_ne by done.
      destruct (decide (k ∈ event_id <$> rest)).
      * rewrite decide_True; [done | by right].
      * rewrite decide_False; [done|]. rewrite elem_of_cons. tauto.
Qed.

(** ** Consistency is kept *)

Section Consistency.
Implicit Types (log : gmap string (list (option Z))) (id : string).

Lemma consistent_init : consistent init ∅.
Proof.
  split; unfold positions_of, events_of, stored_at, positions_of; simpl.
  - intros id. by rewrite !lookup_empty.
  - intros id v. rewrite !lookup_empty. simpl. rewrite lookup_empty.
    split; [by intros ?%elem_of_nil | by intros [? ?]].
  - intros id i j v. by rewrite lookup_empty.
  - intros id versions v n. by rewrite lookup_empty.
  - intros id e. rewrite lookup_empty. by intros ?%elem_of_nil.
  - intros id. rewrite lookup_empty. constructor.
Qed.

(** A call that stores and removes nothing, and that keeps the versions
    that are marked. *)
Lemma consistent_same self self' log log' id0 :
  consistent self log ->
  (forall id, positions_of log' id = positions_of log id) ->
  (forall id, events_of self' id = events_of self id) ->
  _by_id self' = _by_id self ->
  (forall id, id <> id0 ->
     _entity_versions self' !! id = _entity_versions self !! id) ->
  (forall v, is_Some (default ∅ (_entity_versions self' !! id0) !! v) <->
             is_Some (default ∅ (_entity_versions self !! id0) !! v)) ->
  (forall versions v n, _entity_versions self' !! id0 = Some versions ->
     versions !! v = Some n -> n <> new_iter) ->
  consistent self' log'.
Proof.
  intros [Hlen Hidx Huniq Hit Hev Hnd] Hpos Hevs Hby Hvo Hv0 Hit0.
  split.
  - intros id. by rewrite Hpos, Hevs.
  - intros id v. unfold stored_at. rewrite Hpos.
    destruct (decide (id = id0)) as [->|Hne].
    + rewrite Hv0. apply Hidx.
    + rewrite Hvo by done. apply Hidx.
  - intros id i j v. rewrite Hpos. apply Huniq.
  - intros id versions v n.
    destruct (decide (id = id0)) as [->|Hne]; [apply Hit0|].
    rewrite Hvo by done. apply Hit.
  - intros id e. rewrite Hevs, Hby. apply Hev.
  - intros id. rewrite Hevs. apply Hnd.
Qed.

(** A call that removes the events of a sequence with their entries in
    the two indexes. *)
Lemma consistent_removed self self' log log' id0 :
  consistent self log ->
  (forall id, id <> id0 -> positions_of log' id = positions_of log id) ->
  positions_of log' id0 = [] ->
  (forall id, id <> id0 -> events_of self' id = events_of self id) ->
  events_of self' id0 = [] ->
  (forall k, _by_id self' !! k =
             if decide (k ∈ event_id <$> events_of self id0) then None
             else _by_id self !! k) ->
  (forall id, id <> id0 ->
     _entity_versions self' !! id = _entity_versions self !! id) ->
  _entity_versions self' !! id0 = None ->
  consistent self' log'.
Proof.
  intros [Hlen Hidx Huniq Hit Hev Hnd] Hpo Hp0 Heo He0 Hby Hvo Hv0.
  split.
  - intros id. destruct (decide (id = id0)) as [->|Hne].
    + by rewrite Hp0, He0.
    + by rewrite Hpo, Heo.
  - intros id v. unfold stored_at.
    destruct (decide (id = id0)) as [->|Hne].
    + rewrite Hp0, Hv0. simpl. rewrite lookup_empty.
      split; [by intros ?%elem_of_nil | by intros [? ?]].
    + rewrite Hpo, Hvo by done. apply Hidx.
  - intros id i j v. destruct (decide (id = id0)) as [->|Hne].
    + by rewrite Hp0.
    + rewrite Hpo by done. apply Huniq.
  - intros id versions v n. destruct (decide (id = id0)) as [->|Hne].
    + by rewrite Hv0.
    + rewrite Hvo by done. apply Hit.
  - intros id e. destruct (decide (id = id0)) as [->|Hne].
    + rewrite He0. by intros ?%elem_of_nil.
    + rewrite Heo by done. intros He.
      destruct (Hev id e He) as [Hbe Hsid]. split; [|done].
      rewrite Hby, decide_False; [done|].
      intros (e0 & Heq & He0in)%list_elem_of_fmap.
      destruct (Hev id0 e0 He0in) as [Hbe0 Hsid0].
      rewrite Heq, Hbe0 in Hbe. injection Hbe as ->. congruence.
  - intros id. destruct (decide (id = id0)) as [->|Hne].
    + rewrite He0. constructor.
    + rewrite Heo by done. apply Hnd.
Qed.

(** A call that stores one event with a new identifier, at a position
    that is not yet stored. *)
Lemma consistent_stored self self' log log' id0 ev nv :
  consistent self log ->
  _by_id self !! event_id ev = None ->
  stored_entity_id ev = id0 ->
  (forall id, id <> id0 -> positions_of log' id = positions_of log id) ->
  positions_of log' id0 = positions_of log id0 ++ [nv] ->
  (forall id, id <> id0 -> events_of self' id = events_of self id) ->
  events_of self' id0 = events_of self id0 ++ [ev] ->
  _by_id self' = <[event_id ev := ev]> (_by_id self) ->
  (forall id, id <> id0 ->
     _entity_versions self' !! id = _entity_versions self !! id) ->
  match nv with
  | Some v =>
      ~ stored_at log id0 v /\
      _entity_versions self' !! id0
      = Some (<[v := 1%nat]> (default ∅ (_entity_versions self !! id0)))
  | None => _entity_versions self' !! id0 = _entity_versions self !! id0
  end ->
  consistent self' log'.
Proof.
  intros [Hlen Hidx Huniq Hit Hev Hnd] Hfresh Hsid Hpo Hp0 Heo He0 Hby Hvo Hv0.
  assert (Hother : forall id e, e ∈ events_of self id -> event_id e <> event_id ev).
  { intros id e He Heq. destruct (Hev id e He) as [Hbe _]. congruence. }
  split.
  - intros id. destruct (decide (id = id0)) as [->|Hne].
    + rewrite Hp0, He0, !length_app, Hlen. done.
    + by rewrite Hpo, Heo.
  - intros id v. unfold stored_at.
    destruct (decide (id = id0)) as [->|Hne]; [|rewrite Hpo, Hvo by done; apply Hidx].
    rewrite Hp0, elem_of_app, list_elem_of_singleton.
    specialize (Hidx id0 v). unfold stored_at in Hidx. rewrite Hidx.
    destruct nv as [w|].
    + destruct Hv0 as [_ ->]. simpl.
      destruct (decide (w = v)) as [->|Hwv].
      * rewrite lookup_insert_eq. split; eauto.
      * rewrite lookup_insert_ne by done. split; [|tauto].
        intros [?|?]; [done | congruence].
    + rewrite Hv0. split; [|tauto]. intros [?|?]; done.
  - intros id i j v. destruct (decide (id = id0)) as [->|Hne];
      [|rewrite Hpo by done; apply Huniq].
    rewrite Hp0. intros Hi Hj.
    assert (Hcase : forall k, (positions_of log id0 ++ [nv]) !! k = Some (Some v) ->
              positions_of log id0 !! k = Some (Some v) \/
              (k = length (positions_of log id0) /\ nv = Some v)).
    { intros k Hk. apply lookup_app_Some in Hk as [Hk|[Hge Hk]]; [by left|].
      right. apply list_lookup_singleton_Some in Hk as [Hk0 ->].
      split; [lia | done]. }
    assert (Hnew : nv = Some v -> forall k,
              positions_of log id0 !! k = Some (Some v) -> False).
    { intros -> k Hk. destruct Hv0 as [Hnot _]. apply Hnot.
      unfold stored_at. by eapply list_elem_of_lookup_2. }
    destruct (Hcase i Hi) as [Hi'|[-> Hnv]], (Hcase j Hj) as [Hj'|[-> Hnv']].
    + by eapply Huniq.
    + destruct (Hnew Hnv' i Hi').
    + destruct (Hnew Hnv j Hj').
    + done.
  - intros id versions v n. destruct (decide (id = id0)) as [->|Hne];
      [|rewrite Hvo by done; apply Hit].
    destruct nv as [w|].
    + destruct Hv0 as [_ ->]. intros [= <-].
      destruct (decide (w = v)) as [->|Hwv].
      * rewrite lookup_insert_eq. by intros [= <-].
      * rewrite lookup_insert_ne by done.
        destruct (_entity_versions self !! id0) as [vs|] eqn:E; simpl.
        -- by apply (Hit id0).
        -- by rewrite lookup_empty.
    + rewrite Hv0. apply Hit.
  - intros id e. rewrite Hby.
    destruct (decide (id = id0)) as [->|Hne].
    + rewrite He0, elem_of_app, list_elem_of_singleton. intros [He | ->].
      * rewrite lookup_insert_ne by (symmetry; by eapply Hother).
        by apply Hev.
      * by rewrite lookup_insert_eq.
    + rewrite Heo by done. intros He.
      rewrite lookup_insert_ne by (symmetry; by eapply Hother).
      by apply Hev.
  - intros id. destruct (decide (id = id0)) as [->|Hne];
      [|rewrite Heo by done; apply Hnd].
    rewrite He0, fmap_app. apply NoDup_app. split; [apply Hnd|].
    split; [|apply NoDup_singleton].
    intros k (e & -> & He)%list_elem_of_fmap Heq%list_elem_of_singleton.
    by eapply Hother.
Qed.
End Consistency.

Section Steps.
Implicit Types (log : gmap string (list (option Z))) (id : string).

Lemma events_of_ext (s s' : Repo) id :
  _by_stored_entity_id s' !! id = _by_stored_entity_id s !! id ->
  events_of s' id = events_of s id.
Proof. unfold events_of. by intros ->. Qed.

(** [remove_entity] on a store that has the events and the event index of
    a consistent store: the loop meets no missing identifier. *)
Lemma remove_entity_removed (self marked after : Repo) log id0 nv
    (o : Outcome unit) :
  consistent self log ->
  _by_stored_entity_id marked = _by_stored_entity_id self ->
  _by_id marked = _by_id self ->
  (forall id, id <> id0 ->
     _entity_versions marked !! id = _entity_versions self !! id) ->
  remove_entity id0 marked = (o, after) ->
  consistent after (record_positions self after id0 nv log) /\
  (indexed marked id0 -> o = Return tt).
Proof.
  intros Hc Hbe Hby Hvo Hrun.
  assert (Hevs : events_of marked id0 = events_of self id0)
    by (apply events_of_ext; by rewrite Hbe).
  pose proof Hrun as Heff. apply remove_entity_effect in Heff as [Hbe' Hv'].
  rewrite remove_entity_run, Hevs in Hrun.
  destruct (remove_entity_loop_ok (events_of self id0)
              (with_by_stored_entity_id (delete id0) marked))
    as (s2 & Hloop & Hlk).
  { apply (events_distinct _ _ Hc). }
  { intros e He. simpl. rewrite Hby.
    destruct (events_indexed _ _ Hc id0 e He) as [-> _]. eauto. }
  rewrite Hloop in Hrun. simpl in Hlk. rewrite Hby in Hlk.
  assert (Hby' : _by_id after = _by_id s2).
  { unfold entity_versions_delitem in Hrun.
    destruct (_entity_versions s2 !! id0); by injection Hrun as <- <-. }
  assert (Hv0 : _entity_versions after !! id0 = None).
  { destruct o as [[]|e]; destruct Hv' as [Hi ->].
    - apply lookup_delete_eq.
    - unfold entity_versions_delitem in Hrun.
      apply remove_entity_loop_frame in Hloop as (_ & Hv2 & _).
      simpl in Hv2. rewrite Hv2 in Hrun.
      destruct (_entity_versions marked !! id0); [done|]. done. }
  split.
  - apply (consistent_removed self after log _ id0 Hc).
    + intros id Hne. by apply record_positions_other.
    + apply record_positions_removed. by rewrite Hbe', lookup_delete_eq.
    + intros id Hne. apply events_of_ext.
      by rewrite Hbe', lookup_delete_ne, Hbe.
    + unfold events_of. by rewrite Hbe', lookup_delete_eq.
    + intros k. by rewrite Hby'.
    + intros id Hne. rewrite <- Hvo by done.
      destruct o as [[]|e]; destruct Hv' as [_ ->];
        [by rewrite lookup_delete_ne | done].
    + done.
  - intros [vs Hvs]. unfold entity_versions_delitem in Hrun.
    apply remove_entity_loop_frame in Hloop as (_ & Hv2 & _).
    simpl in Hv2. rewrite Hv2, Hvs in Hrun. by injection Hrun as <- _.
Qed.

(** The second half of [append], run on the store with the version
    marked. *)
Lemma append_unchecked_consistent (self marked after : Repo) log ev exp nv
    (o : Outcome unit) :
  let id0 := stored_entity_id ev in
  consistent self log ->
  _by_id self !! event_id ev = None ->
  _by_stored_entity_id marked = _by_stored_entity_id self ->
  _by_id marked = _by_id self ->
  (forall id, id <> id0 ->
     _entity_versions marked !! id = _entity_versions self !! id) ->
  match nv with
  | Some v =>
      ~ stored_at log id0 v /\
      _entity_versions marked !! id0
      = Some (<[v := 1%nat]> (default ∅ (_entity_versions self !! id0)))
  | None => _entity_versions marked !! id0 = _entity_versions self !! id0
  end ->
  append ev exp None marked = (o, after) ->
  consistent after (record_positions self after id0 nv log) /\
  (indexed marked id0 -> o = Return tt).
Proof.
  intros id0 Hc Hfresh Hbe Hby Hvo Hv0. rewrite append_unchecked. fold id0.
  destruct (endswith _ _).
  { by apply remove_entity_removed. }
  assert (Hevs : events_of marked id0 = events_of self id0)
    by (apply events_of_ext; by rewrite Hbe).
  rewrite Hevs. intros [= <- <-]. split; [|done].
  apply (consistent_stored self _ log _ id0 ev nv Hc Hfresh eq_refl); simpl.
  - intros id Hne. by apply record_positions_other.
  - eapply record_positions_stored. simpl. apply lookup_insert_eq.
  - intros id Hne. apply events_of_ext. simpl.
    by rewrite lookup_insert_ne, Hbe.
  - unfold events_of. simpl. by rewrite lookup_insert_eq.
  - by rewrite Hby.
  - done.
  - done.
Qed.

(** Every call of [append] with a new event identifier keeps the store
    consistent with its positions. *)
Lemma append_consistent (self after : Repo) log ev exp nv (o : Outcome unit) :
  consistent self log ->
  _by_id self !! event_id ev = None ->
  append ev exp nv self = (o, after) ->
  consistent after (record_positions self after (stored_entity_id ev) nv log).
Proof.
  intros Hc Hfresh Hrun. set (id0 := stored_entity_id ev) in *.
  destruct nv as [v|].
  2:{ by eapply (append_unchecked_consistent self self after log ev exp None). }
  rewrite append_checked in Hrun. fold id0 in Hrun.
  set (vs := default ∅ (_entity_versions self !! id0)) in *.
  assert (Hsame : forall versions',
    (forall w, is_Some (versions' !! w) <-> is_Some (vs !! w)) ->
    (forall w n, versions' !! w = Some n -> n <> new_iter) ->
    let s' := with_entity_versions (<[id0 := versions']>) self in
    consistent s' (record_positions self s' id0 (Some v) log)).
  { intros versions' Hdom Hadv s'.
    apply (consistent_same self s' log _ id0 Hc); simpl.
    - intros id. destruct (decide (id = id0)) as [->|Hne].
      + apply record_positions_same; [done | apply (positions_length _ _ Hc)].
      + by apply record_positions_other.
    - done.
    - done.
    - intros id Hne. by rewrite lookup_insert_ne.
    - intros w. rewrite lookup_insert_eq. simpl. apply Hdom.
    - intros versions w n. rewrite lookup_insert_eq. intros [= <-]. apply Hadv. }
  assert (Hvs : forall w n, vs !! w = Some n -> n <> new_iter).
  { intros w n. unfold vs.
    destruct (_entity_versions self !! id0) as [vs0|] eqn:E; simpl.
    - by apply (iterators_advanced _ _ Hc id0).
    - by rewrite lookup_empty. }
  destruct (match exp with Some _ => _ | None => _ end).
  { injection Hrun as <- <-. by apply Hsame. }
  destruct (default new_iter (vs !! v)) as [|n] eqn:Ev.
  - assert (Hnone : vs !! v = None).
    { destruct (vs !! v) as [n|] eqn:E; [|done]. simpl in Ev. subst n.
      by destruct (Hvs v new_iter E). }
    eapply (append_unchecked_consistent self
              (with_entity_versions (<[id0 := <[v := 1%nat]> vs]>) self)
              after log ev exp (Some v));
      [done | done | done | done | | | exact Hrun]; simpl.
    + intros id Hne. by rewrite lookup_insert_ne.
    + split; [|by rewrite lookup_insert_eq].
      rewrite (positions_indexed _ _ Hc). fold id0 vs. rewrite Hnone.
      by intros [? ?].
  - injection Hrun as <- <-. apply Hsame.
    + intros w. destruct (decide (v = w)) as [<-|Hne].
      * rewrite lookup_insert_eq.
        destruct (vs !! v) eqn:E; [split; eauto | done].
      * by rewrite lookup_insert_ne.
    + intros w m. destruct (decide (v = w)) as [<-|Hne].
      * rewrite lookup_insert_eq. by intros [= <-].
      * rewrite lookup_insert_ne by done. apply Hvs.
Qed.

Lemma history_consistent (self : Repo) log :
  history self log -> consistent self log.
Proof.
  induction 1 as [|s log ev exp nv _ IH Hfresh|s log id _ IH].
  - apply consistent_init.
  - subst after. destruct (append ev exp nv s) as [o s'] eqn:Hrun.
    by eapply append_consistent.
  - subst after. destruct (remove_entity id s) as [o s'] eqn:Hrun.
    by eapply (remove_entity_removed s s s').
Qed.
End Steps.

(** ** Removing a sequence *)

(** C9, as the claim states it, fails: when two events stored for ["E"]
    carry one identifier, the first call of [remove_entity] raises
    [KeyError] in its loop, before the entry of the version index is
    deleted, and the second call in succession finds that entry and
    returns. *)
Lemma second_remove_entity_returns :
  outcome (append created_a None (Some 0) init) = Return tt /\
  outcome (append duplicate_a (Some 0) (Some 1) store_1) = Return tt /\
  outcome (remove_entity "E" store_duplicate) = Raise KeyError /\
  outcome (remove_entity "E" (store (remove_entity "E" store_duplicate)))
    = Return tt /\
  outcome (remove_entity "E" (store (remove_entity "E" store_duplicate)))
    <> Raise KeyError.
Proof. vm_compute. repeat split; discriminate. Qed.

(** C9, amended.  [remove_entity id] raises [KeyError] when [id] has no
    entry in the version index.  Of two calls in succession for the same
    [id] the second raises [KeyError]: after a first call that returned, in
    any store; and whatever the first call did, in the stores of a
    [history], whose stored events have distinct identifiers.  And whatever
    the outcome, the events stored for [id] are gone, so that a read of
    [id] returns the empty list. *)
Theorem remove_entity_key_error `{Clock} (self : Repo) (id : string) :
  (~ indexed self id -> outcome (remove_entity id self) = Raise KeyError) /\
  (outcome (remove_entity id self) = Return tt ->
   outcome (remove_entity id (store (remove_entity id self))) = Raise KeyError) /\
  (forall log, history self log ->
   outcome (remove_entity id (store (remove_entity id self))) = Raise KeyError) /\
  (forall after until limit query_ascending results_ascending,
     get_entity_events (store (remove_entity id self)) id after until limit
       query_ascending results_ascending = []).
Proof.
  split; [apply remove_entity_not_indexed|].
  destruct (remove_entity id self) as [o s'] eqn:Hrun.
  pose proof Hrun as Heff. apply remove_entity_effect in Heff as [Hb Hv].
  simpl.
  assert (Hsecond : o = Return tt -> outcome (remove_entity id s') = Raise KeyError).
  { intros ->. destruct Hv as [_ Hv]. apply remove_entity_not_indexed.
    unfold indexed. rewrite Hv, lookup_delete_eq. by intros [? ?]. }
  split; [done|]. split.
  - intros log Hc%history_consistent.
    eapply (remove_entity_removed self self s' log id None) in Hrun
      as [_ Hret]; [| done..].
    destruct (_entity_versions self !! id) as [vs|] eqn:Hidx.
    + apply Hsecond, Hret. unfold indexed. rewrite Hidx. eauto.
    + apply remove_entity_not_indexed. unfold indexed.
      destruct o as [[]|e]; destruct Hv as [Hi ->].
      * rewrite lookup_delete_eq. by intros [? ?].
      * rewrite Hidx. by intros [? ?].
  - intros. unfold get_entity_events. by rewrite Hb, lookup_delete_eq.
Qed.

Lemma remove_entity_key_error_witness :
  outcome (remove_entity "E" init) = Raise KeyError /\
  outcome (remove_entity "E" (store (remove_entity "E" store_3))) = Raise KeyError /\
  outcome (remove_entity "F" (store (remove_entity "F" init))) = Raise KeyError.
Proof.
  split; [|split].
  - apply (proj1 (@remove_entity_key_error length_clock init "E")).
    vm_compute. by intros [? ?].
  - apply (proj1 (proj2 (@remove_entity_key_error length_clock store_3 "E"))).
    vm_compute. reflexivity.
  - apply (proj1 (proj2 (proj2 (@remove_entity_key_error length_clock init "F")))
             ∅ history_init).
Defined.

(** ** The concurrency check *)

Section ConcurrencyCheck.
Implicit Types (log : gmap string (list (option Z))) (id : string).

(** What a call of [append] does to the events of its sequence. *)
Lemma append_outcomes (ev : StoredEvent) (exp nv : option Z) (s s' : Repo)
    (o : Outcome unit) :
  let id0 := stored_entity_id ev in
  append ev exp nv s = (o, s') ->
  (o = Raise ConcurrencyError /\
   _by_stored_entity_id s' = _by_stored_entity_id s) \/
  (endswith (event_topic ev) "Discarded" = true /\
   o <> Raise ConcurrencyError /\
   _by_stored_entity_id s' = delete id0 (_by_stored_entity_id s)) \/
  (endswith (event_topic ev) "Discarded" = false /\
   o = Return tt /\
   _by_stored_entity_id s'
   = <[id0 := events_of s id0 ++ [ev]]> (_by_stored_entity_id s)).
Proof.
  intros id0.
  assert (Hun : forall s0, _by_stored_entity_id s0 = _by_stored_entity_id s ->
    append ev exp None s0 = (o, s') ->
    (endswith (event_topic ev) "Discarded" = true /\
     o <> Raise ConcurrencyError /\
     _by_stored_entity_id s' = delete id0 (_by_stored_entity_id s)) \/
    (endswith (event_topic ev) "Discarded" = false /\
     o = Return tt /\
     _by_stored_entity_id s'
     = <[id0 := events_of s id0 ++ [ev]]> (_by_stored_entity_id s))).
  { intros s0 Hbe. rewrite append_unchecked. fold id0.
    destruct (endswith _ _).
    - intros Hrm. left. apply remove_entity_effect in Hrm as [-> Hv].
      rewrite Hbe. split; [done|]. split; [|done].
      destruct o as [[]|e]; [done|]. by destruct Hv as [-> _].
    - intros [= <- <-]. right. simpl.
      rewrite (events_of_ext s0 s) by (by rewrite Hbe). by rewrite Hbe. }
  destruct nv as [v|]; [|intros Hrun; right; by apply (Hun s)].
  rewrite append_checked. fold id0.
  destruct (match exp with Some _ => _ | None => _ end).
  { intros [= <- <-]. by left. }
  destruct (default new_iter _).
  - intros Hrun. right. eapply Hun; [|exact Hrun]. done.
  - intros [= <- <-]. by left.
Qed.

(** On a consistent store a checked call raises [ConcurrencyError]
    exactly when its position is stored or its expected position is not,
    and returns otherwise. *)
Lemma append_raises_iff (self : Repo) log (ev : StoredEvent)
    (exp : option Z) (v : Z) :
  consistent self log ->
  let id0 := stored_entity_id ev in
  (outcome (append ev exp (Some v) self) = Raise ConcurrencyError <->
   stored_at log id0 v \/ exists x, exp = Some x /\ ~ stored_at log id0 x) /\
  (outcome (append ev exp (Some v) self) <> Raise ConcurrencyError ->
   outcome (append ev exp (Some v) self) = Return tt).
Proof.
  intros Hc id0. rewrite append_checked. fold id0.
  set (vs := default ∅ (_entity_versions self !! id0)).
  assert (Hidx : forall w, stored_at log id0 w <-> is_Some (vs !! w))
    by (intros w; apply (positions_indexed _ _ Hc)).
  assert (Hvs : forall w n, vs !! w = Some n -> n <> new_iter).
  { intros w n. unfold vs.
    destruct (_entity_versions self !! id0) as [vs0|] eqn:E; simpl.
    - by apply (iterators_advanced _ _ Hc id0).
    - by rewrite lookup_empty. }
  destruct (match exp with Some x => bool_decide (vs !! x = None) | None => false end)
    eqn:Hexp.
  { simpl. split; [|done]. split; [|done]. intros _. right.
    destruct exp as [x|]; [|done]. apply bool_decide_eq_true in Hexp.
    exists x. split; [done|]. rewrite Hidx, Hexp. by intros [? ?]. }
  assert (Hexp' : ~ exists x, exp = Some x /\ ~ stored_at log id0 x).
  { intros (x & -> & Hx). apply bool_decide_eq_false in Hexp.
    apply Hx, Hidx. by destruct (vs !! x) eqn:E; eauto. }
  destruct (default new_iter (vs !! v)) as [|n] eqn:Ev.
  - assert (Hnone : vs !! v = None).
    { destruct (vs !! v) as [n|] eqn:E; [|done]. simpl in Ev. subst n.
      by destruct (Hvs v new_iter E). }
    set (marked := with_entity_versions (<[id0 := <[v := 1%nat]> vs]>) self).
    assert (Ho : outcome (append ev exp None marked) = Return tt).
    { rewrite append_unchecked. fold id0.
      destruct (endswith _ _); [|done].
      destruct (remove_entity id0 marked) as [o s'] eqn:Hrun.
      eapply (remove_entity_removed self marked s' log id0 None) in Hrun
        as [_ Hret]; [| done | done | done |].
      - apply Hret. exists (<[v := 1%nat]> vs). apply lookup_insert_eq.
      - intros id Hne. simpl. by rewrite lookup_insert_ne. }
    rewrite Ho. split; [|done]. split; [done|].
    intros [Hst | Hx]; [|by destruct Hexp'].
    apply Hidx in Hst. rewrite Hnone in Hst. by destruct Hst.
  - simpl. split; [|done]. split; [|done]. intros _. left.
    apply Hidx. destruct (vs !! v); [eauto | done].
Qed.
End ConcurrencyCheck.

(** C1, as the claim states it, fails, in two ways.  After an event was
    stored at position 0 of ["E"] and the sequence was then discarded, a
    call at position 0 returns although an event at position 0 has already
    been stored, and a call at position 7 with expected position 2 raises
    [ConcurrencyError] although position 2 has been stored and position 7
    has not.  And when two events stored for ["E"] carry one identifier, a
    discard at a free position with a stored expected position raises
    [KeyError]: it neither raises [ConcurrencyError] nor succeeds. *)
Lemma append_check_forgets_discarded :
  (outcome (append created_a None (Some 0) init) = Return tt /\
   outcome (append changed_bb (Some 0) (Some 1) store_1) = Return tt /\
   outcome (append changed_ccc (Some 1) (Some 2) store_2) = Return tt /\
   outcome (append discarded_dddd (Some 2) (Some 3) store_3) = Return tt /\
   outcome (append created_eeeee None (Some 0) store_discarded) = Return tt /\
   outcome (append created_eeeee (Some 2) (Some 7) store_discarded)
     = Raise ConcurrencyError) /\
  (outcome (append duplicate_a (Some 0) (Some 1) store_1) = Return tt /\
   outcome (append discarded_dddd (Some 1) (Some 2) store_duplicate)
     = Raise KeyError).
Proof. vm_compute. repeat split. Qed.

(** C1, amended.  In every store reached by calls of [append] (and of
    [remove_entity]) with fresh event identifiers, a call of [append] with
    [new_version] [v] raises [ConcurrencyError] if and only if an event at
    position [v] is in the store for the sequence, or [expected_version] is
    given and no event at that position is in the store for the sequence;
    otherwise the call returns.  The events in the store are those written
    since the sequence was last removed.  And the store holds at most one
    event per sequence and position: the positions run alongside the stored
    events of a sequence, and no position occurs twice among them. *)
Theorem append_concurrency_check (self : Repo)
    (log : gmap string (list (option Z))) :
  history self log ->
  (forall stored_event expected_version v,
     let id := stored_entity_id stored_event in
     let result := append stored_event expected_version (Some v) self in
     (outcome result = Raise ConcurrencyError <->
      stored_at log id v \/
      exists x, expected_version = Some x /\ ~ stored_at log id x) /\
     (outcome result <> Raise ConcurrencyError -> outcome result = Return tt)) /\
  (forall id,
     length (positions_of log id) = length (events_of self id) /\
     forall i j v,
       positions_of log id !! i = Some (Some v) ->
       positions_of log id !! j = Some (Some v) -> i = j).
Proof.
  intros Hc%history_consistent. split.
  - intros ev exp v. by apply append_raises_iff.
  - intros id. split; [apply (positions_length _ _ Hc)|].
    apply (positions_unique _ _ Hc).
Qed.

Lemma append_concurrency_check_witness :
  outcome (append changed_bb (Some 0) (Some 0) store_1) = Raise ConcurrencyError /\
  outcome (append changed_bb (Some 0) (Some 1) store_1) = Return tt.
Proof.
  assert (Hfresh : _by_id init !! event_id created_a = None) by reflexivity.
  pose proof (history_append init ∅ created_a None (Some 0) history_init Hfresh)
    as Hhist.
  pose proof (append_concurrency_check _ _ Hhist) as [Hcheck _].
  split.
  - apply (proj1 (Hcheck changed_bb (Some 0) 0)).
    left. vm_compute. apply list_elem_of_here.
  - apply (proj2 (Hcheck changed_bb (Some 0) 1)).
    vm_compute. discriminate.
Defined.

(** ** Contiguous positions *)

Lemma stored_at_prefix (log : gmap string (list (option Z))) (id : string)
    (n : nat) (v : Z) :
  positions_of log id = (fun k => Some (Z.of_nat k)) <$> seq 0 n ->
  stored_at log id v <-> 0 <= v < Z.of_nat n.
Proof.
  intros Hpos. unfold stored_at. rewrite Hpos, list_elem_of_fmap. split.
  - intros (k & [= ->] & Hk%elem_of_seq). lia.
  - intros Hv. exists (Z.to_nat v). split; [f_equal; lia|].
    apply elem_of_seq. lia.
Qed.



(** * Further properties of the repository *)

(** ** Rejected calls *)

(** A call of [append] that raises [ConcurrencyError] stores nothing: the
    events and the index by event ID are as before, the version index of
    every other sequence is as before, and so is every read. *)
Theorem rejected_append_stores_nothing `{Clock} (stored_event : StoredEvent)
    (expected_version new_version : option Z) (self : Repo) :
  let after := store (append stored_event expected_version new_version self) in
  outcome (append stored_event expected_version new_version self)
    = Raise ConcurrencyError ->
  _by_stored_entity_id after = _by_stored_entity_id self /\
  _by_id after = _by_id self /\
  (forall id, id <> stored_entity_id stored_event ->
     _entity_versions after !! id = _entity_versions self !! id) /\
  (forall id after_id until limit query_ascending results_ascending,
     get_entity_events after id after_id until limit
       query_ascending results_ascending
     = get_entity_events self id after_id until limit
         query_ascending results_ascending).
Proof.
  intros after Hce.
  enough (Hkeep : _by_stored_entity_id after = _by_stored_entity_id self /\
                  _by_id after = _by_id self /\
                  forall id, id <> stored_entity_id stored_event ->
                    _entity_versions after !! id = _entity_versions self !! id).
  { destruct Hkeep as (Hbe & Hby & Hv). repeat split; try done.
    intros. apply get_entity_events_ext. by rewrite Hbe. }
  subst after. revert Hce.
  assert (Hun : forall s0, outcome (append stored_event expected_version None s0)
                           <> Raise ConcurrencyError).
  { intros s0. rewrite append_unchecked.
    destruct (endswith _ _); [|done].
    destruct (remove_entity _ s0) as [o s2] eqn:Hrm.
    apply remove_entity_effect in Hrm as [_ Hv]. simpl.
    destruct o as [[]|e]; [done|]. by destruct Hv as [-> _]. }
  destruct new_version as [v|]; [|intros Hce; by destruct (Hun self)].
  rewrite append_checked.
  destruct (match expected_version with Some _ => _ | None => _ end).
  { intros _. simpl. repeat split. intros id Hne. by rewrite lookup_insert_ne. }
  destruct (default new_iter _).
  - intros Hce. by destruct (Hun _ Hce).
  - intros _. simpl. repeat split. intros id Hne. by rewrite lookup_insert_ne.
Qed.

Lemma rejected_append_stores_nothing_witness :
  @get_entity_events length_clock
    (store (append changed_ccc (Some 0) (Some 0) store_2)) "E" None None None true true
  = @get_entity_events length_clock store_2 "E" None None None true true.
Proof.
  assert (Hce : outcome (append changed_ccc (Some 0) (Some 0) store_2)
                = Raise ConcurrencyError) by (vm_compute; reflexivity).
  apply (proj2 (proj2 (proj2
    (@rejected_append_stores_nothing length_clock changed_ccc (Some 0) (Some 0)
       store_2 Hce)))).
Defined.

(** A rejected call is rejected again when it is repeated: the marks of the
    version index are not taken back. *)
Theorem rejected_append_retry (stored_event : StoredEvent)
    (expected_version new_version : option Z) (self : Repo) :
  outcome (append stored_event expected_version new_version self)
    = Raise ConcurrencyError ->
  outcome (append stored_event expected_version new_version
             (store (append stored_event expected_version new_version self)))
    = Raise ConcurrencyError.
Proof.
  destruct new_version as [v|].
  2:{ rewrite append_unchecked. destruct (endswith _ _); [|done].
      destruct (remove_entity _ self) as [o s2] eqn:Hrm.
      apply remove_entity_effect in Hrm as [_ Hv]. simpl.
      destruct o as [[]|e]; [done|]. by destruct Hv as [-> _]. }
  set (id := stored_entity_id stored_event).
  set (vs := default ∅ (_entity_versions self !! id)).
  rewrite (append_checked stored_event expected_version v self). fold id vs.
  destruct (match expected_version with Some x => _ | None => _ end) eqn:Hexp.
  { intros _. simpl. rewrite append_checked. fold id. simpl.
    rewrite lookup_insert_eq. simpl. by rewrite Hexp. }
  destruct (default new_iter (vs !! v)) as [|n] eqn:Ev.
  { rewrite append_unchecked. destruct (endswith _ _); [|done].
    destruct (remove_entity _ _) as [o s2] eqn:Hrm.
    apply remove_entity_effect in Hrm as [_ Hv]. simpl.
    destruct o as [[]|e]; [done|]. by destruct Hv as [-> _]. }
  intros _. simpl. rewrite append_checked. fold id. simpl.
  rewrite lookup_insert_eq. simpl.
  assert (Hexp' : match expected_version with
                  | Some x => bool_decide (<[v := S (S n)]> vs !! x = None)
                  | None => false
                  end = false).
  { destruct expected_version as [x|]; [|done].
    apply bool_decide_eq_false in Hexp. apply bool_decide_eq_false.
    destruct (decide (v = x)) as [->|Hne]; [by rewrite lookup_insert_eq|].
    by rewrite lookup_insert_ne. }
  rewrite Hexp'. by rewrite lookup_insert_eq.
Qed.

Lemma rejected_append_retry_witness :
  outcome (append changed_ccc (Some 5) (Some 6)
             (store (append changed_ccc (Some 5) (Some 6) store_2)))
    = Raise ConcurrencyError.
Proof.
  apply (rejected_append_retry changed_ccc (Some 5) (Some 6) store_2).
  vm_compute. reflexivity.
Defined.

(** The position of an accepted call stays taken: after a call stored its
    event at position [v], and after any further calls each of which is for
    another sequence or appends an event that is not a discard, a call at
    position [v] for the sequence raises [ConcurrencyError].  This holds in
    any store. *)
Lemma taken_stays_taken (ev : StoredEvent) (exp nv : option Z) (s : Repo)
    (id : string) (v : Z) :
  endswith (event_topic ev) "Discarded" = false \/ stored_entity_id ev <> id ->
  (exists vs n, _entity_versions s !! id = Some vs /\ vs !! v = Some (S n)) ->
  exists vs n,
    _entity_versions (store (append ev exp nv s)) !! id = Some vs /\
    vs !! v = Some (S n).
Proof.
  intros Hcall (vs & n & Hvs & Hv).
  destruct (decide (stored_entity_id ev = id)) as [Hid|Hne].
  2:{ destruct (append ev exp nv s) as [o s'] eqn:Hrun.
      eapply append_frame in Hrun as [_ Hsame]; [|by apply not_eq_sym].
      simpl. rewrite Hsame. eauto. }
  destruct Hcall as [Htopic|?]; [|done].
  assert (Hun : forall s0 vs0 n0,
            _entity_versions s0 !! id = Some vs0 -> vs0 !! v = Some (S n0) ->
            exists vs' n', _entity_versions (store (append ev exp None s0)) !! id
                           = Some vs' /\ vs' !! v = Some (S n')).
  { intros s0 vs0 n0 H0 Hv0. rewrite append_unchecked, Htopic. simpl. eauto. }
  destruct nv as [w|]; [|by eapply Hun].
  rewrite append_checked, Hid, Hvs. simpl.
  destruct (match exp with Some _ => _ | None => _ end).
  { simpl. rewrite lookup_insert_eq. eauto. }
  destruct (default new_iter (vs !! w)) as [|m] eqn:Ew.
  - eapply (Hun _ (<[w := 1%nat]> vs) n).
    + simpl. by rewrite lookup_insert_eq.
    + destruct (decide (w = v)) as [Heq|Hwv]; [|by rewrite lookup_insert_ne].
      unfold VersionIter in *. rewrite Heq, Hv in Ew. done.
  - simpl. rewrite lookup_insert_eq.
    destruct (decide (w = v)) as [Heq|Hwv].
    + exists (<[w := S (S m)]> vs), (S m). by rewrite Heq, lookup_insert_eq.
    + exists (<[w := S (S m)]> vs), n. by rewrite lookup_insert_ne.
Qed.

Theorem accepted_position_stays_taken (first second : StoredEvent)
    (exp exp' : option Z) (v : Z) (self after_first : Repo)
    (calls : list (StoredEvent * option Z * option Z)) :
  endswith (event_topic first) "Discarded" = false ->
  append first exp (Some v) self = (Return tt, after_first) ->
  Forall (fun call =>
            endswith (event_topic call.1.1) "Discarded" = false \/
            stored_entity_id call.1.1 <> stored_entity_id first) calls ->
  stored_entity_id second = stored_entity_id first ->
  outcome (append second exp' (Some v) (append_all calls after_first))
    = Raise ConcurrencyError.
Proof.
  intros Htopic Hrun Hcalls Hid.
  set (id := stored_entity_id first) in *.
  assert (Hmarked : exists vs n, _entity_versions after_first !! id = Some vs /\
                                 vs !! v = Some (S n)).
  { rewrite append_checked in Hrun. fold id in Hrun.
    destruct (match exp with Some _ => _ | None => _ end); [done|].
    destruct (default new_iter _); [|done].
    rewrite append_unchecked, Htopic in Hrun. injection Hrun as <-. simpl.
    rewrite lookup_insert_eq. eexists _, 0%nat. split; [done|].
    by rewrite lookup_insert_eq. }
  clear Hrun.
  revert after_first Hmarked.
  induction Hcalls as [|[[ev e] nv] calls Hcall _ IH]; intros s Hmarked.
  - destruct Hmarked as (vs & n & Hvs & Hv). cbn [append_all fold_left].
    rewrite append_checked, Hid. fold id. rewrite Hvs. simpl.
    destruct (match exp' with Some _ => _ | None => _ end); [done|].
    unfold VersionIter in *. by rewrite Hv.
  - cbn [append_all fold_left]. apply IH. simpl.
    by apply taken_stays_taken.
Qed.

Lemma accepted_position_stays_taken_witness :
  outcome (append created_eeeee None (Some 0)
             (append_all [(changed_bb, Some 0, Some 1); (created_f, None, Some 0)]
                store_1))
    = Raise ConcurrencyError.
Proof.
  apply (accepted_position_stays_taken created_a created_eeeee None None 0 init
           store_1 [(changed_bb, Some 0, Some 1); (created_f, None, Some 0)]).
  - reflexivity.
  - vm_compute. reflexivity.
  - repeat constructor.
  - reflexivity.
Defined.

(** ** Accepted calls *)

(** The store after a call that stored its event: the event is appended
    to its sequence and indexed by its identifier, on top of a store that
    differs from the one before in the version index only. *)
Lemma append_stored_state (ev : StoredEvent) (exp nv : option Z) (s s' : Repo) :
  endswith (event_topic ev) "Discarded" = false ->
  append ev exp nv s = (Return tt, s') ->
  exists marked,
    _by_stored_entity_id marked = _by_stored_entity_id s /\
    _by_id marked = _by_id s /\
    s' = with_by_id (<[event_id ev := ev]>)
           (with_by_stored_entity_id
              (<[stored_entity_id ev := events_of s (stored_entity_id ev) ++ [ev]]>)
              marked).
Proof.
  intros Htopic.
  assert (Hun : forall s0, _by_stored_entity_id s0 = _by_stored_entity_id s ->
            _by_id s0 = _by_id s ->
            append ev exp None s0 = (Return tt, s') ->
            exists marked,
              _by_stored_entity_id marked = _by_stored_entity_id s /\
              _by_id marked = _by_id s /\
              s' = with_by_id (<[event_id ev := ev]>)
                     (with_by_stored_entity_id
                        (<[stored_entity_id ev
                             := events_of s (stored_entity_id ev) ++ [ev]]>)
                        marked)).
  { intros s0 Hbe Hby. rewrite append_unchecked, Htopic.
    rewrite (events_of_ext s0 s) by (by rewrite Hbe).
    intros [= <-]. by exists s0. }
  destruct nv as [v|]; [|by apply Hun].
  rewrite append_checked.
  destruct (match exp with Some _ => _ | None => _ end); [done|].
  destruct (default new_iter _); [|done].
  by apply Hun.
Qed.

(** Read after write: when a call that appends an event other than a
    discard returns, the default read of the sequence returns what it
    returned before followed by the new event, and the event is indexed by
    its identifier. *)
Theorem append_then_read `{Clock} (stored_event : StoredEvent)
    (expected_version new_version : option Z) (self after : Repo) :
  endswith (event_topic stored_event) "Discarded" = false ->
  append stored_event expected_version new_version self = (Return tt, after) ->
  get_entity_events after (stored_entity_id stored_event) None None None true true
  = get_entity_events self (stored_entity_id stored_event) None None None true true
    ++ [stored_event] /\
  _by_id after !! event_id stored_event = Some stored_event.
Proof.
  intros Htopic Hrun.
  apply append_stored_state in Hrun as (marked & Hbe & Hby & ->); [|done].
  split; [|simpl; apply lookup_insert_eq].
  rewrite !get_entity_events_events_of. simpl.
  rewrite !query_loop_unbounded. simpl.
  unfold events_of at 1. simpl. by rewrite lookup_insert_eq.
Qed.

Lemma append_then_read_witness :
  @get_entity_events length_clock store_2 "E" None None None true true
  = @get_entity_events length_clock store_1 "E" None None None true true
    ++ [changed_bb].
Proof.
  refine (proj1 (@append_then_read length_clock changed_bb (Some 0) (Some 1)
                   store_1 store_2 _ _)).
  - reflexivity.
  - vm_compute. reflexivity.
Defined.

(** ** Calls without [new_version] *)

(** Without [new_version] the expected version is not looked at: the call
    does what the call without both does, and it never raises
    [ConcurrencyError], whatever is stored. *)
Theorem expected_version_alone_is_ignored (stored_event : StoredEvent)
    (expected_version : option Z) (self : Repo) :
  append stored_event expected_version None self
  = append stored_event None None self /\
  outcome (append stored_event expected_version None self)
    <> Raise ConcurrencyError.
Proof.
  rewrite !append_unchecked. split; [done|].
  destruct (endswith _ _); [|done].
  destruct (remove_entity _ self) as [o s2] eqn:Hrm.
  apply remove_entity_effect in Hrm as [_ Hv]. simpl.
  destruct o as [[]|e]; [done|]. by destruct Hv as [-> _].
Qed.

(** A discard without [new_version] for a sequence that has no entry in
    the version index raises [KeyError], and yet the events of the sequence
    are gone afterwards. *)
Theorem unversioned_discard_key_error `{Clock} (discarded : StoredEvent)
    (expected_version : option Z) (self : Repo) :
  endswith (event_topic discarded) "Discarded" = true ->
  ~ indexed self (stored_entity_id discarded) ->
  let result := append discarded expected_version None self in
  outcome result = Raise KeyError /\
  forall after until limit query_ascending results_ascending,
    get_entity_events (store result) (stored_entity_id discarded)
      after until limit query_ascending results_ascending = [].
Proof.
  intros Htopic Hno result. subst result.
  rewrite append_unchecked, Htopic. split.
  - by apply remove_entity_not_indexed.
  - intros. destruct (remove_entity _ self) as [o s'] eqn:Hrm.
    apply remove_entity_effect in Hrm as [Hbe _]. simpl.
    unfold get_entity_events. by rewrite Hbe, lookup_delete_eq.
Qed.

Lemma unversioned_discard_key_error_witness :
  outcome (append discarded_dddd None None
             (store (append created_a None None init))) = Raise KeyError /\
  @get_entity_events length_clock
    (store (append discarded_dddd None None
              (store (append created_a None None init))))
    "E" None None None true true = [].
Proof.
  assert (Htopic : endswith (event_topic discarded_dddd) "Discarded" = true)
    by reflexivity.
  assert (Hno : ~ indexed (store (append created_a None None init))
                  (stored_entity_id discarded_dddd))
    by (vm_compute; by intros [? ?]).
  pose proof (@unversioned_discard_key_error length_clock discarded_dddd None
                _ Htopic Hno) as [Hout Hread].
  split; [exact Hout | apply Hread].
Defined.

(** A rejected call leaves a trace: a checked call for a sequence that is
    unknown raises [ConcurrencyError] when an expected version is given,
    but it enters the sequence in the version index, so that
    [remove_entity], which raised [KeyError] before, returns afterwards. *)
Theorem rejected_append_indexes_sequence (stored_event : StoredEvent)
    (x v : Z) (self : Repo) :
  let id := stored_entity_id stored_event in
  let result := append stored_event (Some x) (Some v) self in
  ~ indexed self id ->
  _by_stored_entity_id self !! id = None ->
  outcome result = Raise ConcurrencyError /\
  outcome (remove_entity id self) = Raise KeyError /\
  outcome (remove_entity id (store result)) = Return tt.
Proof.
  intros id result Hno Hnone. subst result.
  assert (Hv : _entity_versions self !! id = None).
  { unfold indexed in Hno. destruct (_entity_versions self !! id); [|done].
    destruct Hno. eauto. }
  rewrite append_checked. fold id. rewrite Hv. simpl.
  rewrite lookup_empty. simpl. split; [done|].
  split; [by apply remove_entity_not_indexed|].
  rewrite remove_entity_run. unfold events_of. simpl. rewrite Hnone. simpl.
  unfold ret, entity_versions_delitem. simpl. by rewrite lookup_insert_eq.
Qed.

Lemma rejected_append_indexes_sequence_witness :
  outcome (append created_f (Some 0) (Some 1) store_3) = Raise ConcurrencyError /\
  outcome (remove_entity "F" store_3) = Raise KeyError /\
  outcome (remove_entity "F" (store (append created_f (Some 0) (Some 1) store_3)))
    = Return tt.
Proof.
  apply (rejected_append_indexes_sequence created_f 0 1 store_3).
  - vm_compute. by intros [? ?].
  - reflexivity.
Defined.

(** * Further properties of reads *)

Section ReadLoop.
Context `{Clock}.
Implicit Types (aft unt lim : option Z) (l acc : list StoredEvent).

(** The loop in one direction appends what it selects to its
    accumulator. *)
Lemma query_loop_selected aft unt lim qa l (count : Z) acc :
  query_loop aft unt lim qa qa l count acc
  = acc ++ query_loop aft unt lim qa qa l count [].
Proof.
  revert count acc; induction l as [|e l IH]; intros count acc.
  - simpl. by rewrite app_nil_r.
  - cbn [query_loop].
    destruct (match lim with Some _ => _ | None => _ end);
      [by rewrite app_nil_r|].
    destruct (truthy aft && _); [apply IH|].
    destruct (truthy unt && _); [apply IH|].
    rewrite Bool.eqb_reflx. cbn [negb].
    rewrite IH, (IH _ ([] ++ [e])), <- app_assoc. done.
Qed.

(** What it selects is a sublist of the events it runs over. *)
Lemma query_loop_sublist aft unt lim qa l (count : Z) :
  sublist (query_loop aft unt lim qa qa l count []) l.
Proof.
  revert count; induction l as [|e l IH]; intros count; [done|].
  cbn [query_loop].
  destruct (match lim with Some _ => _ | None => _ end);
    [apply sublist_nil_l|].
  destruct (truthy aft && _); [by apply sublist_cons|].
  destruct (truthy unt && _); [by apply sublist_cons|].
  rewrite Bool.eqb_reflx. cbn [negb app].
  rewrite query_loop_selected. by apply sublist_skip.
Qed.

(** It selects no more than the limit leaves. *)
Lemma query_loop_within_limit aft unt (n : Z) qa l (count : Z) :
  (length (query_loop aft unt (Some n) qa qa l count []) <= Z.to_nat (n - count))%nat.
Proof.
  revert count; induction l as [|e l IH]; intros count; [simpl; lia|].
  cbn [query_loop].
  destruct (n <=? count) eqn:Hn; [simpl; lia|].
  destruct (truthy aft && _); [apply IH|].
  destruct (truthy unt && _); [apply IH|].
  rewrite Bool.eqb_reflx. cbn [negb app].
  rewrite query_loop_selected. cbn [length app].
  specialize (IH (count + 1)). lia.
Qed.

(** Against the direction of the query the loop selects the same events,
    and reverses its accumulator after each of them. *)
Lemma query_loop_mixed aft unt lim qa ra l (count : Z) acc :
  ra <> qa ->
  query_loop aft unt lim qa ra l count acc
  = fold_left (fun a e => rev (a ++ [e]))
      (query_loop aft unt lim qa qa l count []) acc.
Proof.
  intros Hne. revert count acc; induction l as [|e l IH]; intros count acc;
    [done|].
  cbn [query_loop].
  destruct (match lim with Some _ => _ | None => _ end); [done|].
  destruct (truthy aft && _); [apply IH|].
  destruct (truthy unt && _); [apply IH|].
  rewrite Bool.eqb_reflx. cbn [negb app].
  rewrite (query_loop_selected _ _ _ _ _ _ [e]). cbn [app fold_left].
  rewrite IH. by destruct ra, qa.
Qed.

Lemma fold_left_reversing_perm (sel acc : list StoredEvent) :
  fold_left (fun a e => rev (a ++ [e])) sel acc ≡ₚ acc ++ sel.
Proof.
  revert acc; induction sel as [|e sel IH]; intros acc; simpl.
  - by rewrite app_nil_r.
  - rewrite IH, <- Permutation_rev, <- app_assoc. done.
Qed.
End ReadLoop.

(** A read with a limit returns at most [limit] events (none when the
    limit is zero or negative), whatever the bounds and the directions. *)
Theorem read_within_limit `{Clock} (self : Repo) (id : string)
    (after until : option string) (limit : Z)
    (query_ascending results_ascending : bool) :
  (length (get_entity_events self id after until (Some limit)
             query_ascending results_ascending) <= Z.to_nat limit)%nat.
Proof.
  rewrite get_entity_events_events_of.
  pose proof (query_loop_within_limit (timestamp_from_uuid <$> after)
                (timestamp_from_uuid <$> until) limit query_ascending
                (in_query_order query_ascending (events_of self id)) 0) as Hle.
  rewrite Z.sub_0_r in Hle.
  destruct (decide (results_ascending = query_ascending)) as [->|Hne]; [done|].
  rewrite query_loop_mixed, fold_left_reversing_perm by done. done.
Qed.

(** A read invents nothing and keeps the order of the query: in one
    direction its result is a sublist of the stored events of the sequence,
    taken in query order.  The direction of the results does not change
    which events are returned. *)
Theorem read_is_sublist `{Clock} (self : Repo) (id : string)
    (after until : option string) (limit : option Z)
    (query_ascending results_ascending : bool) :
  sublist (get_entity_events self id after until limit
             query_ascending query_ascending)
          (in_query_order query_ascending (events_of self id)) /\
  get_entity_events self id after until limit query_ascending results_ascending
  ≡ₚ get_entity_events self id after until limit query_ascending query_ascending.
Proof.
  rewrite !get_entity_events_events_of. split; [apply query_loop_sublist|].
  destruct (decide (results_ascending = query_ascending)) as [->|Hne]; [done|].
  by rewrite query_loop_mixed, fold_left_reversing_perm.
Qed.

(** When the read in one direction returns at most two events, the read
    with the results against the direction of the query returns them
    reversed. *)
Theorem mixed_read_of_two_is_reversed `{Clock} (self : Repo) (id : string)
    (after until : option string) (limit : option Z)
    (query_ascending : bool) :
  (length (get_entity_events self id after until limit
             query_ascending query_ascending) <= 2)%nat ->
  get_entity_events self id after until limit
    query_ascending (negb query_ascending)
  = rev (get_entity_events self id after until limit
           query_ascending query_ascending).
Proof.
  rewrite !get_entity_events_events_of.
  rewrite (query_loop_mixed _ _ _ query_ascending (negb query_ascending));
    [|by destruct query_ascending].
  destruct (query_loop _ _ _ _ _ _ _ _) as [|a [|b [|c sel]]]; simpl;
    [done | done | done | lia].
Qed.

Lemma mixed_read_of_two_is_reversed_witness :
  @get_entity_events length_clock store_3 "E" (Some "a") None None true false
  = rev (@get_entity_events length_clock store_3 "E" (Some "a") None None true true).
Proof.
  apply (@mixed_read_of_two_is_reversed length_clock store_3 "E" (Some "a")
           None None true).
  vm_compute. lia.
Defined.

(** Without bounds and limit, the descending read is the ascending read
    reversed: all the stored events of the sequence, last first. *)
Theorem descending_read_is_reversed `{Clock} (self : Repo) (id : string) :
  get_entity_events self id None None None false false
  = rev (get_entity_events self id None None None true true) /\
  get_entity_events self id None None None true true = events_of self id.
Proof.
  rewrite !get_entity_events_events_of. simpl.
  by rewrite !query_loop_unbounded.
Qed.

(** ** Paging by [after] and [limit] *)

Section Paging.
Context `{Clock}.

Lemma filter_in_window_unbounded (qa : bool) (l : list StoredEvent) :
  List.filter (in_window None None qa) l = l.
Proof. induction l as [|e l IH]; [done|]. simpl. by rewrite IH. Qed.

(** In a list sorted by strictly increasing timestamp, the events after
    one of its events are the events that follow it. *)
Lemma filter_after_sorted (l1 l2 : list StoredEvent) (e : StoredEvent) :
  StronglySorted (fun a b => timestamp a < timestamp b) (l1 ++ e :: l2) ->
  List.filter (in_window (Some (event_id e)) None true) (l1 ++ e :: l2) = l2.
Proof.
  intros Hsorted.
  apply StronglySorted_app in Hsorted as (Hbefore & _ & Htail).
  apply StronglySorted_inv in Htail as [_ Hafter].
  rewrite List.filter_app. cbn [List.filter].
  assert (H1 : List.filter (in_window (Some (event_id e)) None true) l1 = []).
  { assert (Hall : forall x, x ∈ l1 -> timestamp x < timestamp e)
      by (intros x Hx; apply Hbefore; [done | by left]).
    clear Hbefore. induction l1 as [|x l1 IH]; [done|]. simpl.
    unfold in_window at 1. fold (timestamp e).
    replace (timestamp e <? timestamp x) with false
      by (symmetry; apply Z.ltb_ge; specialize (Hall x ltac:(by left)); lia).
    simpl. apply IH. intros y Hy. apply Hall. by right. }
  rewrite H1. unfold in_window at 1. fold (timestamp e).
  rewrite Z.ltb_irrefl. simpl. clear Hbefore H1.
  induction Hafter as [|x l2 Hx _ IH]; [done|]. simpl.
  unfold in_window at 1. fold (timestamp e).
  apply Z.ltb_lt in Hx. rewrite Hx. simpl. by rewrite IH.
Qed.
End Paging.

(** Pages compose.  When the events of a sequence are stored by strictly
    increasing timestamp, an ascending page of [n] events, followed by the
    ascending page of [m] events read with [after] the identifier of the
    last event of the first page, is the ascending page of [n + m]
    events. *)
Theorem ascending_pages_compose `{Clock} (self : Repo) (id : string)
    (n m : Z) (last_of_page : StoredEvent) :
  0 <= n -> 0 <= m ->
  StronglySorted (fun a b => timestamp a < timestamp b) (events_of self id) ->
  last (get_entity_events self id None None (Some n) true true)
    = Some last_of_page ->
  timestamp last_of_page <> 0 ->
  get_entity_events self id None None (Some n) true true ++
  get_entity_events self id (Some (event_id last_of_page)) None (Some m) true true
  = get_entity_events self id None None (Some (n + m)) true true.
Proof.
  intros Hn Hm Hsorted Hlast Hts.
  assert (Hpage : forall k,
    get_entity_events self id None None (Some k) true true
    = take (Z.to_nat k) (events_of self id)).
  { intros k. rewrite get_entity_events_events_of.
    rewrite query_loop_window by done. simpl.
    rewrite filter_in_window_unbounded. do 2 f_equal. lia. }
  rewrite !Hpage in *.
  set (evs := events_of self id) in *. set (N := Z.to_nat n) in *.
  apply last_Some in Hlast as [l1 Hl1].
  assert (Hevs : evs = l1 ++ last_of_page :: drop N evs).
  { rewrite <- (take_drop N evs) at 1. rewrite Hl1, <- app_assoc. done. }
  rewrite get_entity_events_events_of. cbn [in_query_order]. fold evs.
  rewrite query_loop_window;
    [| by intros a [= <-] | done].
  cbn [app remaining fmap option_fmap option_map up_to].
  rewrite Z.sub_0_r.
  assert (Hrest : List.filter (in_window (Some (event_id last_of_page)) None true) evs
                  = drop N evs).
  { rewrite Hevs at 1. apply filter_after_sorted. by rewrite <- Hevs. }
  rewrite Hrest.
  replace (Z.to_nat (n + m)) with (N + Z.to_nat m)%nat by lia.
  destruct (decide (length evs <= N)%nat) as [Hle|Hgt].
  - rewrite (drop_ge evs N), take_nil, app_nil_r by done.
    rewrite !take_ge by lia. done.
  - rewrite <- (take_drop N evs) at 3.
    rewrite take_app_add' by (rewrite length_take; lia). done.
Qed.

Lemma ascending_pages_compose_witness :
  @get_entity_events length_clock store_3 "E" None None (Some 1) true true ++
  @get_entity_events length_clock store_3 "E" (Some "a") None (Some 1) true true
  = @get_entity_events length_clock store_3 "E" None None (Some 2) true true.
Proof.
  apply (@ascending_pages_compose length_clock store_3 "E" 1 1 created_a).
  - lia.
  - lia.
  - vm_compute. repeat constructor.
  - reflexivity.
  - vm_compute. discriminate.
Defined.

(** * Further properties of the two indexes *)

Section Indexes.
Implicit Types (log : gmap string (list (option Z))) (id : string).

(** [remove_entity], on a store that has the events and the event index
    of a consistent store, deletes from the event index the identifiers of
    the events of the sequence, and nothing else. *)
Lemma remove_entity_by_id (self marked after : Repo) log id0 (o : Outcome unit) :
  consistent self log ->
  _by_stored_entity_id marked = _by_stored_entity_id self ->
  _by_id marked = _by_id self ->
  remove_entity id0 marked = (o, after) ->
  forall k, _by_id after !! k =
            if decide (k ∈ event_id <$> events_of self id0) then None
            else _by_id self !! k.
Proof.
  intros Hc Hbe Hby Hrun.
  assert (Hevs : events_of marked id0 = events_of self id0)
    by (apply events_of_ext; by rewrite Hbe).
  rewrite remove_entity_run, Hevs in Hrun.
  destruct (remove_entity_loop_ok (events_of self id0)
              (with_by_stored_entity_id (delete id0) marked))
    as (s2 & Hloop & Hlk).
  { apply (events_distinct _ _ Hc). }
  { intros e He. simpl. rewrite Hby.
    destruct (events_indexed _ _ Hc id0 e He) as [-> _]. eauto. }
  rewrite Hloop in Hrun. simpl in Hlk. rewrite Hby in Hlk.
  assert (Hby' : _by_id after = _by_id s2).
  { unfold entity_versions_delitem in Hrun.
    destruct (_entity_versions s2 !! id0); by injection Hrun as <- <-. }
  intros k. by rewrite Hby'.
Qed.

(** The three things a call of [append] can do to the events and to the
    event index of a consistent store: nothing, remove the sequence, or
    store the event. *)
Lemma append_indexes (self after : Repo) log (ev : StoredEvent)
    (exp nv : option Z) (o : Outcome unit) :
  let id0 := stored_entity_id ev in
  consistent self log ->
  append ev exp nv self = (o, after) ->
  (_by_stored_entity_id after = _by_stored_entity_id self /\
   _by_id after = _by_id self) \/
  (_by_stored_entity_id after = delete id0 (_by_stored_entity_id self) /\
   forall k, _by_id after !! k =
             if decide (k ∈ event_id <$> events_of self id0) then None
             else _by_id self !! k) \/
  (_by_stored_entity_id after
   = <[id0 := events_of self id0 ++ [ev]]> (_by_stored_entity_id self) /\
   _by_id after = <[event_id ev := ev]> (_by_id self)).
Proof.
  intros id0 Hc.
  assert (Hun : forall s0, _by_stored_entity_id s0 = _by_stored_entity_id self ->
            _by_id s0 = _by_id self ->
            append ev exp None s0 = (o, after) ->
            (_by_stored_entity_id after = delete id0 (_by_stored_entity_id self) /\
             forall k, _by_id after !! k =
                       if decide (k ∈ event_id <$> events_of self id0) then None
                       else _by_id self !! k) \/
            (_by_stored_entity_id after
             = <[id0 := events_of self id0 ++ [ev]]> (_by_stored_entity_id self) /\
             _by_id after = <[event_id ev := ev]> (_by_id self))).
  { intros s0 Hbe Hby. rewrite append_unchecked. fold id0.
    destruct (endswith _ _).
    - intros Hrm. left. split.
      + apply remove_entity_effect in Hrm as [-> _]. by rewrite Hbe.
      + by eapply remove_entity_by_id.
    - rewrite (events_of_ext s0 self) by (by rewrite Hbe).
      intros [= <- <-]. right. simpl. by rewrite Hbe, Hby. }
  destruct nv as [v|]; [|intros Hrun; right; by apply (Hun self)].
  rewrite append_checked. fold id0.
  destruct (match exp with Some _ => _ | None => _ end).
  { intros [= <- <-]. by left. }
  destruct (default new_iter _).
  - intros Hrun. right. eapply Hun; [| |exact Hrun]; done.
  - intros [= <- <-]. by left.
Qed.

(** Every entry of the event index of a store of a [history] is a stored
    event, entered under its own identifier. *)
Lemma by_id_sound (self : Repo) log :
  history self log ->
  forall k e, _by_id self !! k = Some e ->
    event_id e = k /\ e ∈ events_of self (stored_entity_id e).
Proof.
  assert (Hremoved : forall s s' id0,
    (forall k e, _by_id s !! k = Some e ->
       event_id e = k /\ e ∈ events_of s (stored_entity_id e)) ->
    _by_stored_entity_id s' = delete id0 (_by_stored_entity_id s) ->
    (forall k, _by_id s' !! k =
               if decide (k ∈ event_id <$> events_of s id0) then None
               else _by_id s !! k) ->
    forall k e, _by_id s' !! k = Some e ->
      event_id e = k /\ e ∈ events_of s' (stored_entity_id e)).
  { intros s s' id0 IH Hbe Hby k e. rewrite Hby. case_decide as Hk; [done|].
    intros [Heid He]%IH. split; [done|].
    destruct (decide (stored_entity_id e = id0)) as [Hid|Hne].
    - destruct Hk. rewrite <- Heid, <- Hid. by apply list_elem_of_fmap_2.
    - rewrite (events_of_ext s s'); [done|]. by rewrite Hbe, lookup_delete_ne. }
  induction 1 as [|s log ev exp nv Hhist IH Hfresh|s log id Hhist IH].
  - intros k e. simpl. by rewrite lookup_empty.
  - subst after. destruct (append ev exp nv s) as [o s'] eqn:Hrun. simpl.
    pose proof (history_consistent _ _ Hhist) as Hc.
    pose proof (append_indexes s s' log ev exp nv o Hc Hrun)
      as [[Hbe Hby] | [[Hbe Hby] | [Hbe Hby]]].
    + intros k e. rewrite Hby, (events_of_ext s s') by (by rewrite Hbe).
      apply IH.
    + by eapply Hremoved.
    + intros k e. rewrite Hby.
      destruct (decide (event_id ev = k)) as [<-|Hne].
      * rewrite lookup_insert_eq. intros [= <-]. split; [done|].
        unfold events_of. rewrite Hbe, lookup_insert_eq. simpl.
        apply elem_of_app. right. by left.
      * rewrite lookup_insert_ne by done. intros [Heid He]%IH. split; [done|].
        unfold events_of at 1. rewrite Hbe.
        destruct (decide (stored_entity_id ev = stored_entity_id e)) as [Hid|Hid].
        -- rewrite Hid, lookup_insert_eq. simpl.
           apply elem_of_app. by left.
        -- rewrite lookup_insert_ne by done. done.
  - subst after. destruct (remove_entity id s) as [o s'] eqn:Hrun. simpl.
    pose proof (history_consistent _ _ Hhist) as Hc.
    eapply Hremoved; [exact IH | | ].
    + by apply remove_entity_effect in Hrun as [-> _].
    + by eapply (remove_entity_by_id s s s').
Qed.
End Indexes.

(** In the stores of a history the two indexes agree: the index by event
    ID holds exactly the stored events, each under its own identifier and
    each stored in the sequence it names. *)
Theorem indexes_agree (self : Repo) (log : gmap string (list (option Z))) :
  history self log ->
  forall k e,
    _by_id self !! k = Some e <->
    event_id e = k /\ e ∈ events_of self (stored_entity_id e).
Proof.
  intros Hhist k e. split; [by apply (by_id_sound self log)|].
  intros [<- He]. pose proof (history_consistent _ _ Hhist) as Hc.
  by destruct (events_indexed _ _ Hc _ _ He).
Qed.

Lemma indexes_agree_witness :
  _by_id store_1 !! "a" = Some created_a <->
  event_id created_a = "a" /\
  created_a ∈ events_of store_1 (stored_entity_id created_a).
Proof.
  assert (Hfresh : _by_id init !! event_id created_a = None) by reflexivity.
  exact (indexes_agree _ _
           (history_append init ∅ created_a None (Some 0) history_init Hfresh)
           "a" created_a).
Defined.

(** In the stores of a history, [remove_entity] deletes from the index by
    event ID the events of its sequence and leaves the entries of all other
    events, whether it returns or raises for want of a version index
    entry. *)
Theorem remove_entity_clears_event_index (self : Repo)
    (log : gmap string (list (option Z))) (id : string) :
  history self log ->
  let after := store (remove_entity id self) in
  (forall e, e ∈ events_of self id -> _by_id after !! event_id e = None) /\
  (forall e, e ∈ events_of self (stored_entity_id e) ->
     stored_entity_id e <> id -> _by_id after !! event_id e = Some e) /\
  events_of after id = [].
Proof.
  intros Hhist after. pose proof (history_consistent _ _ Hhist) as Hc.
  subst after. destruct (remove_entity id self) as [o s'] eqn:Hrun. simpl.
  pose proof (remove_entity_by_id self self s' log id o Hc eq_refl eq_refl Hrun)
    as Hby.
  apply remove_entity_effect in Hrun as [Hbe _].
  split; [|split].
  - intros e He. rewrite Hby, decide_True; [done|]. by apply list_elem_of_fmap_2.
  - intros e He Hne. rewrite Hby.
    destruct (events_indexed _ _ Hc _ _ He) as [Hidx _].
    rewrite decide_False; [done|].
    intros (e0 & Heq & He0)%list_elem_of_fmap.
    destruct (events_indexed _ _ Hc _ _ He0) as [Hidx0 Hsid0].
    rewrite Heq, Hidx0 in Hidx. injection Hidx as ->. done.
  - unfold events_of. by rewrite Hbe, lookup_delete_eq.
Qed.

Lemma remove_entity_clears_event_index_witness :
  _by_id (store (remove_entity "E" store_1)) !! event_id created_a = None.
Proof.
  assert (Hfresh : _by_id init !! event_id created_a = None) by reflexivity.
  apply (proj1 (remove_entity_clears_event_index _ _ "E"
                  (history_append init ∅ created_a None (Some 0) history_init Hfresh))).
  vm_compute. apply list_elem_of_here.
Defined.

(** In the stores of a history a read returns events of its own sequence
    only, and no event twice. *)
Theorem read_returns_own_events `{Clock} (self : Repo)
    (log : gmap string (list (option Z))) (id : string)
    (after until : option string) (limit : option Z)
    (query_ascending results_ascending : bool) :
  history self log ->
  let result := get_entity_events self id after until limit
                  query_ascending results_ascending in
  (forall e, e ∈ result -> stored_entity_id e = id /\ e ∈ events_of self id) /\
  NoDup (event_id <$> result).
Proof.
  intros Hc%history_consistent result.
  assert (Hsub : result ⊆+ events_of self id).
  { subst result. rewrite get_entity_events_events_of.
    assert (Hsel : query_loop (timestamp_from_uuid <$> after)
                     (timestamp_from_uuid <$> until) limit query_ascending
                     results_ascending
                     (in_query_order query_ascending (events_of self id)) 0 []
                   ≡ₚ query_loop (timestamp_from_uuid <$> after)
                        (timestamp_from_uuid <$> until) limit query_ascending
                        query_ascending
                        (in_query_order query_ascending (events_of self id)) 0 []).
    { destruct (decide (results_ascending = query_ascending)) as [->|Hne]; [done|].
      by rewrite query_loop_mixed, fold_left_reversing_perm. }
    rewrite Hsel.
    assert (Hall : in_query_order query_ascending (events_of self id)
                   ≡ₚ events_of self id).
    { destruct query_ascending; simpl; [done|]. symmetry. apply Permutation_rev. }
    etrans; [apply sublist_submseteq, query_loop_sublist|]. by rewrite Hall. }
  split.
  - intros e He. pose proof (elem_of_submseteq _ _ _ He Hsub) as Hin.
    split; [|done]. by destruct (events_indexed _ _ Hc _ _ Hin).
  - assert (Hids : event_id <$> result ⊆+ event_id <$> events_of self id)
      by (by apply fmap_submseteq).
    apply submseteq_Permutation in Hids as [k Hk].
    pose proof (events_distinct _ _ Hc id) as Hnd.
    rewrite Hk in Hnd. by apply NoDup_app in Hnd as [? _].
Qed.

Lemma read_returns_own_events_witness :
  length (@get_entity_events length_clock store_3_and_f "E"
            None None None true false) = 3%nat /\
  (forall e,
     e ∈ @get_entity_events length_clock store_3_and_f "E"
           None None None true false ->
     stored_entity_id e = "E" /\ e ∈ events_of store_3_and_f "E") /\
  NoDup (event_id <$> @get_entity_events length_clock store_3_and_f "E"
                        None None None true false).
Proof.
  assert (Hfresh1 : _by_id init !! event_id created_a = None) by reflexivity.
  assert (Hfresh2 : _by_id store_1 !! event_id changed_bb = None)
    by (vm_compute; reflexivity).
  assert (Hfresh3 : _by_id store_2 !! event_id changed_ccc = None)
    by (vm_compute; reflexivity).
  assert (Hfresh4 : _by_id store_3 !! event_id created_f = None)
    by (vm_compute; reflexivity).
  pose proof (history_append _ _ created_a None (Some 0) history_init Hfresh1)
    as Hhist1.
  pose proof (history_append _ _ changed_bb (Some 0) (Some 1) Hhist1 Hfresh2)
    as Hhist2.
  pose proof (history_append _ _ changed_ccc (Some 1) (Some 2) Hhist2 Hfresh3)
    as Hhist3.
  pose proof (history_append _ _ created_f None (Some 0) Hhist3 Hfresh4)
    as Hhist4.
  split; [vm_compute; reflexivity|].
  exact (@read_returns_own_events length_clock _ _ "E" None None None
           true false Hhist4).
Defined.

(** * Further properties of the event store *)

Section EventStoreOnRepo.
Context `{Clock} {DomainEvent : Type} `{!Versioned DomainEvent}.
Variable ser : DomainEvent -> StoredEvent.
Variable deser : StoredEvent -> DomainEvent.
Variable iter : Repo -> string -> option string -> option string -> option Z ->
                bool -> Z -> list StoredEvent.

Local Abbreviation repo := (python_objects_repository ser deser iter).
Local Abbreviation es_history := (@event_store_history DomainEvent repo _).
Local Abbreviation es_append := (@EventStore.append Repo DomainEvent repo _).

(** The expected version the event store passes for version [v]. *)
Lemma es_append_run (e : DomainEvent) (s : Repo) :
  es_append e s
  = append (ser e)
      (if negb (entity_version e =? 0) then Some (entity_version e - 1) else None)
      (Some (entity_version e)) s.
Proof. reflexivity. Qed.

(** The stores of the event store are consistent, and their positions
    count up from 0. *)
Lemma es_history_counts (s : Repo) (log : gmap string (list (option Z))) :
  es_history s log ->
  consistent s log /\
  forall id, positions_of log id
             = (fun k => Some (Z.of_nat k)) <$> seq 0 (length (events_of s id)).
Proof.
  induction 1 as [|s log e _ [Hc IH] Hfresh].
  { split; [apply consistent_init|]. intros id.
    unfold positions_of, events_of. simpl. by rewrite !lookup_empty. }
  subst after. rewrite es_append_run. simpl in Hfresh.
  set (ev := ser e) in *. set (v := entity_version e) in *.
  set (exp := if negb (v =? 0) then Some (v - 1) else None) in *.
  set (id0 := stored_entity_id ev) in *.
  destruct (append ev exp (Some v) s) as [o s'] eqn:Hrun. simpl.
  split; [by eapply append_consistent|].
  intros id. destruct (decide (id = id0)) as [->|Hne].
  2:{ rewrite record_positions_other by done.
      eapply append_frame in Hrun as [Hbe _]; [|exact Hne].
      rewrite (events_of_ext s s') by done. apply IH. }
  pose proof (append_raises_iff s log ev exp v Hc) as [Hiff _].
  fold id0 in Hiff. rewrite Hrun in Hiff. simpl in Hiff.
  pose proof (append_outcomes ev exp (Some v) s s' o Hrun)
    as [[_ Hbe] | [(_ & _ & Hbe) | (_ & -> & Hbe)]]; fold id0 in Hbe.
  - rewrite record_positions_same;
      [| by rewrite Hbe | apply (positions_length _ _ Hc)].
    rewrite (events_of_ext s s') by (by rewrite Hbe). apply IH.
  - rewrite record_positions_removed by (by rewrite Hbe, lookup_delete_eq).
    unfold events_of. by rewrite Hbe, lookup_delete_eq.
  - rewrite (record_positions_stored _ _ _ _ _ ev)
      by (by rewrite Hbe, lookup_insert_eq).
    replace (events_of s' id0) with (events_of s id0 ++ [ev])
      by (unfold events_of at 2; by rewrite Hbe, lookup_insert_eq).
    rewrite length_app, Nat.add_comm. cbn [length Nat.add].
    rewrite seq_S, fmap_app, <- IH. simpl. do 3 f_equal.
    set (n := length (events_of s id0)) in *.
    pose proof (stored_at_prefix log id0 n v (IH id0)) as Hv.
    pose proof (stored_at_prefix log id0 n (v - 1) (IH id0)) as Hv1.
    assert (Hnot : ~ (stored_at log id0 v \/
                      exists x, exp = Some x /\ ~ stored_at log id0 x))
      by (intros Hce; by apply Hiff in Hce).
    destruct (decide (v = 0)) as [Hv0|Hv0]; [assert (~ (0 <= v < Z.of_nat n)) by tauto; lia|].
    destruct (decide (0 <= v - 1 < Z.of_nat n)) as [|Hno]; [assert (~ (0 <= v < Z.of_nat n)) by tauto; lia|].
    destruct Hnot. right. exists (v - 1). split; [|tauto].
    unfold exp. by apply Z.eqb_neq in Hv0 as ->.
Qed.
End EventStoreOnRepo.

(** The event store accepts exactly the next version.  In a store reached
    by calls of [EventStore.append] with fresh event identifiers, a call
    raises [ConcurrencyError] if and only if the version of the event is
    not the number of events stored for its sequence; at that number the
    call returns. *)
Theorem event_store_accepts_next_version `{Clock} {DomainEvent : Type}
    `{!Versioned DomainEvent}
    (ser : DomainEvent -> StoredEvent) (deser : StoredEvent -> DomainEvent)
    (iter : Repo -> string -> option string -> option string -> option Z ->
            bool -> Z -> list StoredEvent)
    (self : Repo) (log : gmap string (list (option Z)))
    (domain_event : DomainEvent) :
  let repo := python_objects_repository ser deser iter in
  event_store_history self log ->
  let stored := Z.of_nat (length (events_of self (stored_entity_id (ser domain_event)))) in
  (outcome (EventStore.append domain_event self) = Raise ConcurrencyError <->
   entity_version domain_event <> stored) /\
  (entity_version domain_event = stored ->
   outcome (EventStore.append domain_event self) = Return tt).
Proof.
  intros repo Hhist stored. subst repo.
  apply es_history_counts in Hhist as [Hc Hcount].
  rewrite !es_append_run.
  set (ev := ser domain_event) in *. set (v := entity_version domain_event) in *.
  set (id0 := stored_entity_id ev) in *.
  set (n := length (events_of self id0)) in *.
  pose proof (append_raises_iff self log ev
                (if negb (v =? 0) then Some (v - 1) else None) v Hc)
    as [Hiff Helse].
  fold id0 in Hiff, Helse.
  pose proof (stored_at_prefix log id0 n v (Hcount id0)) as Hv.
  pose proof (stored_at_prefix log id0 n (v - 1) (Hcount id0)) as Hv1.
  assert (Hce : outcome (append ev (if negb (v =? 0) then Some (v - 1) else None)
                           (Some v) self) = Raise ConcurrencyError <->
                v <> stored).
  { rewrite Hiff. unfold stored. split.
    - intros [Hst | (x & Hx & Hno)]; [apply Hv in Hst; lia|].
      destruct (v =? 0) eqn:Hv0; simpl in Hx; [done|]. injection Hx as <-.
      rewrite Hv1 in Hno. apply Z.eqb_neq in Hv0. lia.
    - intros Hne. destruct (decide (0 <= v < Z.of_nat n)) as [Hin|Hout].
      + left. by apply Hv.
      + right. exists (v - 1). destruct (v =? 0) eqn:Hv0.
        * apply Z.eqb_eq in Hv0. lia.
        * split; [done|]. rewrite Hv1. apply Z.eqb_neq in Hv0. lia. }
  split; [done|].
  intros Heq. apply Helse. rewrite Hce. tauto.
Qed.

Lemma event_store_accepts_next_version_witness :
  outcome (@EventStore.append Repo SampleDomainEvent sample_repository
             sample_version sample_created
             (store (@EventStore.append Repo SampleDomainEvent sample_repository
                       sample_version sample_created init)))
    = Raise ConcurrencyError.
Proof.
  assert (Hfresh : _by_id init !! event_id (sample_serialize sample_created) = None)
    by reflexivity.
  pose proof (@event_store_history_append SampleDomainEvent sample_repository
                sample_version init ∅ sample_created
                (@event_store_history_init _ _ _) Hfresh) as Hhist.
  apply (proj1 (@event_store_accepts_next_version length_clock SampleDomainEvent
                  sample_version sample_serialize sample_deserialize
                  (fun _ _ _ _ _ _ _ => []) _ _ sample_created Hhist)).
  vm_compute. discriminate.
Defined.

(** Round trip through the event store.  When [EventStore.append] of an
    event other than a discard returns, and the event deserializes from its
    record, the default read of its sequence yields what it yielded before,
    followed by the event. *)
Theorem event_store_append_then_read `{Clock} {DomainEvent : Type}
    `{!Versioned DomainEvent}
    (ser : DomainEvent -> StoredEvent) (deser : StoredEvent -> DomainEvent)
    (iter : Repo -> string -> option string -> option string -> option Z ->
            bool -> Z -> list StoredEvent)
    (self after : Repo) (domain_event : DomainEvent) :
  let repo := python_objects_repository ser deser iter in
  let id := stored_entity_id (ser domain_event) in
  endswith (event_topic (ser domain_event)) "Discarded" = false ->
  deser (ser domain_event) = domain_event ->
  EventStore.append domain_event self = (Return tt, after) ->
  EventStore.get_entity_events after id None None None true None false
  = EventStore.get_entity_events self id None None None true None false
    ++ [domain_event].
Proof.
  intros repo id Htopic Hcodec. subst repo. rewrite es_append_run. intros Hrun.
  apply append_stored_state in Hrun as (marked & Hbe & Hby & ->); [|done].
  unfold EventStore.get_entity_events. simpl.
  rewrite !get_entity_events_events_of. simpl.
  rewrite !query_loop_unbounded. simpl.
  unfold events_of at 1. simpl. fold id. rewrite lookup_insert_eq. simpl.
  rewrite fmap_app. simpl. by rewrite Hcodec.
Qed.

(** The short read with a limit yields the last [limit] events of the
    sequence, in ascending order, whatever [is_ascending] says. *)
Theorem short_read_yields_last_events `{Clock} {DomainEvent : Type}
    (ser : DomainEvent -> StoredEvent) (deser : StoredEvent -> DomainEvent)
    (iter : Repo -> string -> option string -> option string -> option Z ->
            bool -> Z -> list StoredEvent)
    (self : Repo) (id : string) (limit : Z) (is_ascending : bool) :
  let repo := python_objects_repository ser deser iter in
  EventStore.get_entity_events self id None None (Some limit) is_ascending None true
  = deser <$> drop (length (events_of self id) - Z.to_nat limit) (events_of self id).
Proof.
  intros repo. subst repo. unfold EventStore.get_entity_events. simpl.
  rewrite get_entity_events_events_of. simpl.
  rewrite (query_loop_window None None (Some limit) false) by done.
  simpl. rewrite Z.sub_0_r, filter_in_window_unbounded.
  by rewrite firstn_rev, rev_involutive.
Qed.

Lemma event_store_append_then_read_witness :
  @EventStore.get_entity_events Repo SampleDomainEvent sample_repository
    (store (@EventStore.append Repo SampleDomainEvent sample_repository
              sample_version sample_created init))
    "E" None None None true None false
  = @EventStore.get_entity_events Repo SampleDomainEvent sample_repository
      init "E" None None None true None false ++ [sample_created].
Proof.
  apply (@event_store_append_then_read length_clock SampleDomainEvent
           sample_version sample_serialize sample_deserialize
           (fun _ _ _ _ _ _ _ => []) init _ sample_created).
  - reflexivity.
  - reflexivity.
  - vm_compute. reflexivity.
Defined.

(** * Further properties of the example entity *)

Section Beats.
Import Example.
Variable originator_is_valid : Example -> Heartbeat -> bool.

Lemma beats_applied_0 (self : Example) : beats_applied 0 self = self.
Proof.
  destruct self. unfold beats_applied, with_version, with_count_heartbeats.
  simpl. by rewrite !Z.add_0_r.
Qed.

Lemma beats_applied_add (j k : Z) (self : Example) :
  beats_applied k (beats_applied j self) = beats_applied (j + k) self.
Proof.
  unfold beats_applied, with_version, with_count_heartbeats. simpl.
  by rewrite !Z.add_assoc.
Qed.

(** One turn either raises, leaving the entity as it is, or applies one
    heartbeat. *)
Lemma beat_heart_body_cases (events : list Heartbeat) (self : Example) :
  beat_heart_body originator_is_valid events self
  = if originator_is_valid self (mkHeartbeat (_id self) (_version self))
    then (Return (events ++ [mkHeartbeat (_id self) (_version self)]),
          beats_applied 1 self)
    else (Raise EntityError, self).
Proof.
  unfold beat_heart_body, _apply, heartbeat_mutator, _validate_originator,
    _increment_version.
  rewrite !bind_run. unfold gets at 1. rewrite !bind_run.
  destruct (originator_is_valid self _); [|done].
  rewrite !bind_run. unfold modify, ret. done.
Qed.

(** The loop passes its accumulator through. *)
Lemma beat_heart_loop_acc (turns : nat) (events : list Heartbeat) (self : Example) :
  beat_heart_loop originator_is_valid turns events self
  = match beat_heart_loop originator_is_valid turns [] self with
    | (Return built, self') => (Return (events ++ built), self')
    | (Raise e, self') => (Raise e, self')
    end.
Proof.
  revert events self; induction turns as [|turns IH]; intros events self.
  - simpl. unfold ret. by rewrite app_nil_r.
  - cbn [beat_heart_loop]. rewrite !bind_run, !beat_heart_body_cases.
    destruct (originator_is_valid self _); [|done].
    rewrite IH, (IH ([] ++ _)).
    destruct (beat_heart_loop _ turns [] _) as [[built|e] s']; [|done].
    by rewrite <- app_assoc.
Qed.

(** [a + b] turns are [a] turns followed by [b] turns. *)
Lemma beat_heart_loop_add (a b : nat) (events : list Heartbeat) (self : Example) :
  beat_heart_loop originator_is_valid (a + b) events self
  = (let! events := beat_heart_loop originator_is_valid a events in
     beat_heart_loop originator_is_valid b events) self.
Proof.
  revert events self; induction a as [|a IH]; intros events self; [done|].
  cbn [beat_heart_loop Nat.add]. rewrite !bind_run.
  destruct (beat_heart_body _ events self) as [[evs|e] s1]; [|done].
  by rewrite IH, bind_run.
Qed.

(** What the loop leaves: some heartbeats applied, all of them when it
    returns. *)
Lemma beat_heart_loop_effect (turns : nat) (self self' : Example)
    (o : Outcome (list Heartbeat)) :
  beat_heart_loop originator_is_valid turns [] self = (o, self') ->
  exists k : nat,
    (k <= turns)%nat /\ self' = beats_applied (Z.of_nat k) self /\
    match o with
    | Return events => k = turns /\ length events = turns
    | Raise e => e = EntityError /\ (k < turns)%nat
    end.
Proof.
  revert self self' o; induction turns as [|turns IH]; intros self self' o.
  - intros [= <- <-]. exists 0%nat. by rewrite beats_applied_0.
  - cbn [beat_heart_loop]. rewrite bind_run, beat_heart_body_cases.
    destruct (originator_is_valid self _).
    + rewrite beat_heart_loop_acc.
      destruct (beat_heart_loop _ turns [] _) as [o1 s1] eqn:Hloop.
      apply IH in Hloop as (k & Hk & -> & Ho).
      intros Hrun. exists (S k). split; [lia|].
      assert (Hs : self' = beats_applied (1 + Z.of_nat k) self)
        by (rewrite <- beats_applied_add; destruct o1; by injection Hrun as _ <-).
      split; [rewrite Hs; f_equal; lia|].
      destruct o1 as [built|e]; injection Hrun as <- _.
      * destruct Ho as [-> Hlen]. split; [done|]. simpl. lia.
      * destruct Ho as [-> Hlt]. split; [done | lia].
    + intros [= <- <-]. exists 0%nat. rewrite beats_applied_0.
      split; [lia|]. split; [done|]. split; [done | lia].
Qed.
End Beats.

(** The edges of [beat_heart]: on a discarded entity it raises and leaves
    the entity as it is, whatever the number of beats; on a live entity a
    number of beats of zero or less publishes the empty list and leaves the
    entity as it is. *)
Theorem beat_heart_edges
    (originator_is_valid : Example.Example -> Example.Heartbeat -> bool)
    (number_of_beats : Z) (self : Example.Example) :
  (Example._is_discarded self = true ->
   Example.beat_heart originator_is_valid number_of_beats self
   = (Raise EntityError, self)) /\
  (Example._is_discarded self = false -> number_of_beats <= 0 ->
   Example.beat_heart originator_is_valid number_of_beats self
   = (Return [], self)).
Proof.
  unfold Example.beat_heart, Example._assert_not_discarded.
  rewrite !bind_run. split; intros ->; [done|].
  intros Hn. replace (Z.to_nat number_of_beats) with 0%nat by lia. done.
Qed.

Lemma beat_heart_edges_witness :
  Example.beat_heart same_version (-3) sample_entity = (Return [], sample_entity).
Proof.
  apply (proj2 (beat_heart_edges same_version (-3) sample_entity)).
  - reflexivity.
  - lia.
Defined.

(** What [beat_heart] leaves behind, whatever its outcome: some number [k]
    of heartbeats is applied, which raises the heartbeat count and the
    version by [k] each and changes nothing else.  When the call returns,
    [k] is the number of beats asked for and as many events are published;
    when it raises, fewer beats are applied and they are not taken back. *)
Theorem beat_heart_effect
    (originator_is_valid : Example.Example -> Example.Heartbeat -> bool)
    (number_of_beats : Z) (self self' : Example.Example)
    (o : Outcome (list Example.Heartbeat)) :
  Example.beat_heart originator_is_valid number_of_beats self = (o, self') ->
  exists k : nat,
    (k <= Z.to_nat number_of_beats)%nat /\
    self' = beats_applied (Z.of_nat k) self /\
    count_heartbeats self' = count_heartbeats self + Z.of_nat k /\
    Example._version self' = Example._version self + Z.of_nat k /\
    match o with
    | Return events => k = Z.to_nat number_of_beats /\ length events = k
    | Raise e => e = EntityError
    end.
Proof.
  unfold Example.beat_heart, Example._assert_not_discarded.
  rewrite !bind_run. destruct (Example._is_discarded self).
  { intros [= <- <-]. exists 0%nat. rewrite beats_applied_0.
    unfold count_heartbeats. repeat split; lia. }
  rewrite bind_run.
  destruct (Example.beat_heart_loop _ _ _ self) as [o1 s1] eqn:Hloop.
  apply beat_heart_loop_effect in Hloop as (k & Hk & -> & Ho).
  intros Hrun. exists k. split; [done|].
  assert (Hs : self' = beats_applied (Z.of_nat k) self)
    by (destruct o1; by injection Hrun as _ <-).
  split; [done|]. rewrite Hs. split; [done|]. split; [done|].
  destruct o1 as [events|e]; injection Hrun as <- _.
  - destruct Ho as [-> Hlen]. done.
  - by destruct Ho as [-> _].
Qed.

Lemma beat_heart_effect_witness :
  exists k : nat,
    (k <= Z.to_nat 2)%nat /\
    store (Example.beat_heart same_version 2 sample_entity)
    = beats_applied (Z.of_nat k) sample_entity /\
    count_heartbeats (store (Example.beat_heart same_version 2 sample_entity))
    = count_heartbeats sample_entity + Z.of_nat k /\
    Example._version (store (Example.beat_heart same_version 2 sample_entity))
    = Example._version sample_entity + Z.of_nat k /\
    (k = Z.to_nat 2 /\
     length [Example.mkHeartbeat "x" 1; Example.mkHeartbeat "x" 2] = k).
Proof.
  refine (beat_heart_effect same_version 2 sample_entity _
            (Return [Example.mkHeartbeat "x" 1; Example.mkHeartbeat "x" 2]) _).
  vm_compute. reflexivity.
Defined.

(** Beats add up: on a live entity, [m] beats followed by [n] beats do what
    [m + n] beats do, and publish the same events in two batches. *)
Theorem beat_heart_composes
    (originator_is_valid : Example.Example -> Example.Heartbeat -> bool)
    (m n : Z) (self middle final : Example.Example)
    (first second : list Example.Heartbeat) :
  0 <= m -> 0 <= n ->
  Example.beat_heart originator_is_valid m self = (Return first, middle) ->
  Example.beat_heart originator_is_valid n middle = (Return second, final) ->
  Example.beat_heart originator_is_valid (m + n) self
  = (Return (first ++ second), final).
Proof.
  intros Hm Hn. unfold Example.beat_heart, Example._assert_not_discarded.
  rewrite !bind_run.
  destruct (Example._is_discarded self); [done|].
  rewrite !bind_run.
  replace (Z.to_nat (m + n)) with (Z.to_nat m + Z.to_nat n)%nat by lia.
  rewrite beat_heart_loop_add, bind_run.
  destruct (Example.beat_heart_loop _ (Z.to_nat m) [] self)
    as [[evs1|e] s1]; [|done].
  unfold ret at 1. intros [= <- <-].
  destruct (Example._is_discarded s1); [done|].
  rewrite bind_run, (beat_heart_loop_acc _ (Z.to_nat n) evs1).
  destruct (Example.beat_heart_loop _ (Z.to_nat n) [] s1)
    as [[evs2|e] s2]; [|done].
  unfold ret. by intros [= <- <-].
Qed.

Lemma beat_heart_composes_witness :
  Example.beat_heart same_version (1 + 1) sample_entity
  = (Return ([Example.mkHeartbeat "x" 1] ++ [Example.mkHeartbeat "x" 2]),
     beats_applied 2 sample_entity).
Proof.
  apply (beat_heart_composes same_version 1 1 sample_entity
           (beats_applied 1 sample_entity) (beats_applied 2 sample_entity)).
  - lia.
  - lia.
  - vm_compute. reflexivity.
  - vm_compute. reflexivity.
Defined.

(** [beat_heart] goes through when the check of the originator accepts
    every event that carries the identifier and the version of the entity
    it is applied to: on a live entity the call then returns, with all its
    beats applied. *)
Theorem beat_heart_returns
    (originator_is_valid : Example.Example -> Example.Heartbeat -> bool)
    (number_of_beats : Z) (self : Example.Example) :
  (forall entity,
     originator_is_valid entity
       (Example.mkHeartbeat (Example._id entity) (Example._version entity))
     = true) ->
  Example._is_discarded self = false ->
  exists events,
    Example.beat_heart originator_is_valid number_of_beats self
    = (Return events, beats_applied (Z.of_nat (Z.to_nat number_of_beats)) self).
Proof.
  intros Hvalid Hlive. unfold Example.beat_heart, Example._assert_not_discarded.
  rewrite !bind_run, Hlive, bind_run.
  assert (Hloop : forall turns entity, exists events,
    Example.beat_heart_loop originator_is_valid turns [] entity
    = (Return events, beats_applied (Z.of_nat turns) entity)).
  { induction turns as [|turns IH]; intros entity.
    - exists []. simpl. unfold ret. by rewrite beats_applied_0.
    - cbn [Example.beat_heart_loop].
      rewrite bind_run, beat_heart_body_cases, Hvalid, beat_heart_loop_acc.
      destruct (IH (beats_applied 1 entity)) as [events ->].
      eexists. rewrite beats_applied_add. do 2 f_equal. lia. }
  destruct (Hloop (Z.to_nat number_of_beats) self) as [events ->].
  by exists events.
Qed.

Lemma beat_heart_returns_witness :
  exists events,
    Example.beat_heart same_version 3 sample_entity
    = (Return events, beats_applied (Z.of_nat (Z.to_nat 3)) sample_entity).
Proof.
  apply (beat_heart_returns same_version 3 sample_entity).
  - intros entity. apply Z.eqb_refl.
  - reflexivity.
Defined.
